(** * Basic income versus basic job: the Monte Carlo engine

    A shallow embedding of [basic-income-basic-job.js]: the random variate
    helpers ([uniformRand], [gaussRand], [binomRand]), the two policy models
    ([basicIncomeCostBenefit], [basicJobCostBenefit]) and [run], which
    collects the trials, the per-trial totals and the per-category averages.
    The chart code ([render], [histogram], [bars]) only reads those results
    and is left out.

    JavaScript numbers are kept behind an interface with two instances: the
    real numbers (exact arithmetic) and binary64 floating point, the
    arithmetic the script runs on.  What depends on the structure of the
    code alone is proved for every instance; the arithmetic facts are proved
    over the reals; in binary64 the code is evaluated at concrete inputs,
    and the exit condition of the rejection loop is proved from the IEEE
    specification of the primitive floats.  [Math.random] is a list of draws
    that the code consumes from the left. *)

From Stdlib Require Import ZArith QArith Qreals Reals Zfloor Lra Lia.
From Stdlib Require Import String List Bool Permutation Sorted.
From Stdlib Require Floats.PrimFloat Floats.FloatOps Floats.SpecFloat Floats.FloatAxioms.
From Stdlib Require Uint63.
Import ListNotations.

Close Scope Q_scope.
Local Open Scope string_scope.
Local Open Scope list_scope.

(** ** Numbers *)

(** The operators the script applies to numbers.  [lit] reads a decimal
    literal of the source text. *)
Class JSNumber (num : Type) : Type := {
  lit : Q -> num;
  js_add : num -> num -> num;
  js_sub : num -> num -> num;
  js_mul : num -> num -> num;
  js_div : num -> num -> num;
  js_neg : num -> num;
  js_ge : num -> num -> bool;
  js_gt : num -> num -> bool;
  js_strict_eq : num -> num -> bool
}.

(** The methods of the [Math] object that the script calls, [Math.random]
    apart. *)
Class JSMath (num : Type) : Type := {
  Math_sqrt : num -> num;
  Math_log : num -> num;
  Math_round : num -> num
}.

Declare Scope js_scope.
Delimit Scope js_scope with js.
Infix "+" := js_add : js_scope.
Infix "-" := js_sub : js_scope.
Infix "*" := js_mul : js_scope.
Infix "/" := js_div : js_scope.
Notation "- x" := (js_neg x) : js_scope.
Infix ">=" := js_ge : js_scope.
Infix ">" := js_gt : js_scope.
Infix "===" := js_strict_eq (at level 70, no associativity) : js_scope.
Arguments lit {num JSNumber} _%_Q.

(** *** Exact arithmetic *)

Definition Rgeb (x y : R) : bool := if Rge_dec x y then true else false.
Definition Rgtb (x y : R) : bool := if Rgt_dec x y then true else false.
Definition Reqb (x y : R) : bool := if Req_dec_T x y then true else false.

(** [Math.round] rounds to the nearest integer, halves towards plus
    infinity. *)
Definition Rround (x : R) : R := IZR (Zfloor (x + / 2)).

#[export] Instance exact_number : JSNumber R := {|
  lit := Q2R;
  js_add := Rplus;
  js_sub := Rminus;
  js_mul := Rmult;
  js_div := Rdiv;
  js_neg := Ropp;
  js_ge := Rgeb;
  js_gt := Rgtb;
  js_strict_eq := Reqb
|}.

(** Over the reals [ln] and [sqrt] are total (0 outside their domains) and
    so is division; [gaussRand] applies them inside their domains only. *)
#[export] Instance exact_math : JSMath R := {|
  Math_sqrt := sqrt;
  Math_log := ln;
  Math_round := Rround
|}.

(** *** Binary64 *)

Definition float_of_Z (z : Z) : PrimFloat.float :=
  match z with
  | Z0 => PrimFloat.zero
  | Zpos _ => PrimFloat.of_uint63 (Uint63.of_Z z)
  | Zneg p => PrimFloat.opp (PrimFloat.of_uint63 (Uint63.of_Z (Zpos p)))
  end.

(** A literal [n/d] with [n] and [d] below 2^53 is the correctly rounded
    quotient of two exact integers, which is the double the script's
    parser reads. *)
Definition float_lit (q : Q) : PrimFloat.float :=
  PrimFloat.div (float_of_Z (Qnum q)) (float_of_Z (Zpos (Qden q))).

Definition float_ge (x y : PrimFloat.float) : bool := PrimFloat.leb y x.
Definition float_gt (x y : PrimFloat.float) : bool := PrimFloat.ltb y x.

(** [Math.round] on a double: NaN, the infinities, the zeros and the
    integers are returned as they are; otherwise floor(x + 1/2), computed
    exactly, with -0 for a result of zero from a negative argument. *)
Definition float_round (x : PrimFloat.float) : PrimFloat.float :=
  match FloatOps.Prim2SF x with
  | SpecFloat.S754_finite s m e =>
      if (0 <=? e)%Z then x
      else
        let n := ((2 * (if s then Zneg m else Zpos m) + 2 ^ (- e)) / 2 ^ (1 - e))%Z in
        if (n =? 0)%Z then (if s then PrimFloat.neg_zero else PrimFloat.zero)
        else float_of_Z n
  | _ => x
  end.

#[export] Instance binary64_number : JSNumber PrimFloat.float := {|
  lit := float_lit;
  js_add := PrimFloat.add;
  js_sub := PrimFloat.sub;
  js_mul := PrimFloat.mul;
  js_div := PrimFloat.div;
  js_neg := PrimFloat.opp;
  js_ge := float_ge;
  js_gt := float_gt;
  js_strict_eq := PrimFloat.eqb
|}.

(** [Math.log] is implementation-approximated in ECMAScript, so the
    binary64 [Math] object takes it as an argument. *)
Definition binary64_math (log : PrimFloat.float -> PrimFloat.float) : JSMath PrimFloat.float := {|
  Math_sqrt := PrimFloat.sqrt;
  Math_log := log;
  Math_round := float_round
|}.

(** ** Objects used as maps *)

(** An object literal filled by assignments: its own properties in
    insertion order, each key once. *)
Definition object (num : Type) : Type := list (string * num).

Section Objects.
Context {num : Type}.

Definition empty_object : object num := [].

Definition Object_keys (o : object num) : list string := map fst o.

(** [o[key]]; [None] is [undefined]. *)
Fixpoint get (key : string) (o : object num) : option num :=
  match o with
  | [] => None
  | (k, v) :: o' => if String.eqb key k then Some v else get key o'
  end.

Definition hasOwnProperty (key : string) (o : object num) : bool :=
  match get key o with Some _ => true | None => false end.

(** [o[key] = v]: an existing property keeps its place, a new one goes
    last. *)
Fixpoint set (key : string) (v : num) (o : object num) : object num :=
  match o with
  | [] => [(key, v)]
  | (k, w) :: o' =>
      if String.eqb key k then (k, v) :: o' else (k, w) :: set key v o'
  end.
End Objects.

(** ** Arrays *)

(** A JavaScript array with possible holes; [None] is a hole. *)
Definition array (A : Type) : Type := list (option A).

Section Arrays.
Context {A : Type}.

(** [arr[i] = v]: overwrites inside the array, and extends it (leaving
    holes below [i]) outside. *)
Fixpoint array_set (i : nat) (v : A) (arr : array A) : array A :=
  match i, arr with
  | O, [] => [Some v]
  | O, _ :: t => Some v :: t
  | S i', [] => None :: array_set i' v []
  | S i', x :: t => x :: array_set i' v t
  end.

(** [arr.reduce(f, init)]: a left fold that skips the holes. *)
Definition array_reduce {B : Type} (f : B -> A -> B) (arr : array A) (init : B) : B :=
  fold_left (fun acc x => match x with Some a => f acc a | None => acc end) arr init.

(** The elements of an array without holes. *)
Definition elements (arr : array A) : list A :=
  flat_map (fun x => match x with Some a => [a] | None => [] end) arr.
End Arrays.

(** ** Randomness *)

(** A computation that consumes draws of [Math.random]; [None] when the
    draws supplied run out before it returns. *)
Definition Rand (num A : Type) : Type := list num -> option (A * list num).

Definition ret {num A : Type} (a : A) : Rand num A := fun rs => Some (a, rs).

Definition bind {num A B : Type} (c : Rand num A) (k : A -> Rand num B) : Rand num B :=
  fun rs => match c rs with
            | Some (a, rs') => k a rs'
            | None => None
            end.

Notation "x <- c ;; k" := (bind c (fun x => k))
  (at level 61, c at next level, right associativity).
Notation "' pat <- c ;; k" := (bind c (fun pat => k))
  (at level 61, pat pattern, c at next level, right associativity).

Definition Math_random {num : Type} : Rand num num :=
  fun rs => match rs with
            | u :: rs' => Some (u, rs')
            | [] => None
            end.

(** ** The script *)

Section Script.
Context {num : Type} `{JSNumber num} `{JSMath num}.
Local Open Scope js_scope.

(** *** Constants *)

Definition numAdults : num := lit 227e6.
Definition basicIncome : num := lit 7.25 * lit 40 * lit 50.
Definition laborForce : num := lit 154e6.
Definition disabledAdults : num := lit 21e6.
Definition currentWealthTransfers : num := lit 3369e9.

(** *** Utility functions *)

Definition uniformRand (min max : num) : Rand num num :=
  u <- Math_random ;;
  ret (u * (max - min) + min).

(** The [do ... while] loop of [gaussRand]: [u1] and [u2] are its two
    calls of [Math.random]; it returns the [z1], [z2] and [radius] it
    leaves with. *)
Fixpoint gaussRand_loop (rs : list num) : option ((num * num * num) * list num) :=
  match rs with
  | u1 :: u2 :: rs' =>
      let z1 := lit 2 * u1 - lit 1 in
      let z2 := lit 2 * u2 - lit 1 in
      let radius := z1 * z1 + z2 * z2 in
      if (radius >= lit 1) || (radius === lit 0) then gaussRand_loop rs'
      else Some ((z1, z2, radius), rs')
  | _ => None
  end.

(** An argument left out is [None] ([undefined]). *)
Definition gaussRand (mu sigma : option num) : Rand num num :=
  let mu := match mu with Some m => m | None => lit 0 end in
  let sigma := match sigma with Some s => s | None => lit 1 end in
  '(z1, z2, radius) <- gaussRand_loop ;;
  let marsaglia := Math_sqrt (- lit 2 * Math_log radius / radius) in
  ret ((z1 * marsaglia) * sigma + mu).

Definition binomRand (N p : num) : Rand num num :=
  g <- gaussRand (Some (N * p)) (Some (Math_sqrt (N * p * (lit 1 - p)))) ;;
  let count := Math_round g in
  ret (if count > lit 0 then count else lit 0).

(** *** Basic income model *)

Definition basicIncomeCostBenefit : Rand num (object num) :=
  let amounts := empty_object in
  let amounts := set "directCosts" (numAdults * basicIncome / lit 2) amounts in
  administrativeCostPerPerson <- gaussRand (Some (lit 250)) (Some (lit 75)) ;;
  let amounts :=
    set "administrativeCosts" (numAdults * administrativeCostPerPerson) amounts in
  nonWorkerMultiplier <- uniformRand (- lit 0.10) (lit 0.15) ;;
  let nonWorkers :=
    (numAdults - laborForce - disabledAdults) * (lit 1 + nonWorkerMultiplier) in
  let avgHourlyWage := lit 25 in
  productivityMultiplier <- uniformRand (- lit 0.1) (lit 0.2) ;;
  let amounts :=
    set "productivity"
        (- laborForce * (lit 40 * lit 52 * avgHourlyWage) * productivityMultiplier)
        amounts in
  count <- binomRand nonWorkers (lit 1e-7) ;;
  let amounts := set "jkRowling" (- count * lit 1e9) amounts in
  ret amounts.

(** *** Basic job model *)

Definition basicJobCostBenefit : Rand num (object num) :=
  let amounts := empty_object in
  nonWorkerMultiplier <- uniformRand (- lit 0.1) (lit 0.15) ;;
  let numBasicWorkers :=
    (numAdults - disabledAdults - laborForce) * (lit 1 + nonWorkerMultiplier) in
  let amounts := set "directCosts" (numBasicWorkers * basicIncome) amounts in
  administrativeCostPerDisabledPerson <- gaussRand (Some (lit 500)) (Some (lit 150)) ;;
  let amounts :=
    set "disabled" (disabledAdults * (basicIncome + administrativeCostPerDisabledPerson))
        amounts in
  administrativeCostPerWorker <- gaussRand (Some (lit 5000)) (Some (lit 1500)) ;;
  let amounts :=
    set "administrativeCosts" (numBasicWorkers * administrativeCostPerWorker) amounts in
  basicJobHourlyProductivity <- uniformRand (- lit 7.25) (lit 7.25) ;;
  let amounts :=
    set "productivity"
        (- numBasicWorkers * (lit 40 * lit 50 * basicJobHourlyProductivity)) amounts in
  ret amounts.

(** *** Run models and aggregate results *)

(** The script's global variables. *)
Record globals : Type := {
  biAmounts : array (object num);
  biTotals : array num;
  bjAmounts : array (object num);
  bjTotals : array num;
  biAmountsAvg : option (object num);
  bjAmountsAvg : option (object num)
}.

Definition initial_globals : globals := {|
  biAmounts := []; biTotals := []; bjAmounts := []; bjTotals := [];
  biAmountsAvg := None; bjAmountsAvg := None
|}.

(** [Object.keys(amounts).reduce(function (total, key) { return
    amounts[key] / 1e12 + total; }, 0)].  A key of [Object.keys(amounts)]
    is an own property, so the [None] branch is never taken
    ([get_own_key]). *)
Definition trial_total (amounts : object num) : num :=
  fold_left
    (fun total key =>
       match get key amounts with
       | Some v => v / lit 1e12 + total
       | None => total
       end)
    (Object_keys amounts) (lit 0).

(** The inner function of [run]; [N] is the variable of the enclosing
    call.  Matching on [avg[key]] is the test [avg.hasOwnProperty(key)]
    together with the read of [avg[key]] in [+=]. *)
Definition amountsAvgReducer (N : num) (avg amounts : object num) : object num :=
  fold_left
    (fun avg key =>
       match get key amounts with
       | Some v =>
           match get key avg with
           | Some a => set key (a + v / N) avg
           | None => set key (v / N) avg
           end
       | None => avg
       end)
    (Object_keys amounts) avg.

(** The [for] loop of [run], with [n] iterations left from index [i]. *)
Fixpoint run_loop (n i : nat) (g : globals) : Rand num globals :=
  match n with
  | O => ret g
  | S n' =>
      bi <- basicIncomeCostBenefit ;;
      bj <- basicJobCostBenefit ;;
      run_loop n' (S i)
        {| biAmounts := array_set i bi (biAmounts g);
           biTotals := array_set i (trial_total bi) (biTotals g);
           bjAmounts := array_set i bj (bjAmounts g);
           bjTotals := array_set i (trial_total bj) (bjTotals g);
           biAmountsAvg := biAmountsAvg g;
           bjAmountsAvg := bjAmountsAvg g |}
  end.

(** The body of [run] below the binding of [N]. *)
Definition run_with (N : Z) (g : globals) : Rand num globals :=
  g <- run_loop (Z.to_nat N) 0 g ;;
  let N := lit (inject_Z N) in
  ret {| biAmounts := biAmounts g;
         biTotals := biTotals g;
         bjAmounts := bjAmounts g;
         bjTotals := bjTotals g;
         biAmountsAvg :=
           Some (array_reduce (amountsAvgReducer N) (biAmounts g) empty_object);
         bjAmountsAvg :=
           Some (array_reduce (amountsAvgReducer N) (bjAmounts g) empty_object) |}.

(** [var N = 1000;] *)
Definition run : globals -> Rand num globals := run_with 1000.

End Script.

(** ** Vocabulary of the properties *)

(** An array without holes, all of whose elements satisfy [P]. *)
Definition dense {A : Type} (P : A -> Prop) (arr : array A) : Prop :=
  Forall (fun x => exists a, x = Some a /\ P a) arr.

(** The key list of an object after assignments to the keys [ks] in turn. *)
Definition add_keys (ks0 ks : list string) : list string :=
  fold_left (fun acc k => if existsb (String.eqb k) acc then acc else acc ++ [k]) ks ks0.

Definition basicIncomeKeys : list string :=
  ["directCosts"; "administrativeCosts"; "productivity"; "jkRowling"].

Definition basicJobKeys : list string :=
  ["directCosts"; "disabled"; "administrativeCosts"; "productivity"].

Section Vocabulary.
Context {num : Type} `{JSNumber num} `{JSMath num}.
Local Open Scope js_scope.

(** The [nonWorkers] of the basic income model, from the draw of
  [nonWorkerMultiplier]. *)
Definition nonWorkers (nonWorkerMultiplier : num) : num :=
(numAdults - laborForce - disabledAdults) * (lit 1 + nonWorkerMultiplier).

(** The sum of the values of a mapping, in the order of its keys. *)
Definition sum_values (o : object num) : num :=
  fold_right (fun kv total => snd kv + total) (lit 0) o.


(** The trial arrays have no holes, every trial lists the keys of its
  model, and each total is the total of the trial at the same index. *)
Record coherent (g : globals) : Prop := {
coherent_bi : dense (fun a => Object_keys a = basicIncomeKeys) (biAmounts g);
coherent_bj : dense (fun a => Object_keys a = basicJobKeys) (bjAmounts g);
coherent_biTotals : biTotals g = map (option_map trial_total) (biAmounts g);
coherent_bjTotals : bjTotals g = map (option_map trial_total) (bjAmounts g)
}.

(** The states of the globals that the page can be in before a call of
  [run]: the initial one, or the one a previous call left. *)
Inductive reachable : globals -> Prop :=
| reachable_initial : reachable initial_globals
| reachable_run g rs g' rs' :
  reachable g -> run g rs = Some (g', rs') -> reachable g'.
End Vocabulary.

Section ExactVocabulary.
Local Open Scope R_scope.

(** The sum of [amounts[key]] over the keys [ks]. *)
Definition keyed_sum (amounts : object R) (ks : list string) : R :=
  fold_right (fun key acc => match get key amounts with
                             | Some v => v + acc
                             | None => acc
                             end) 0 ks.


(** Addition of optional amounts; [None] is the absence of the key. *)
Definition opt_add (x y : option R) : option R :=
  match x, y with
  | Some a, Some b => Some (a + b)
  | Some a, None => Some a
  | None, _ => y
  end.

(** What the assignments of one trial to the keys [ks] add under [key]. *)
Definition share (N : R) (key : string) (amounts : object R) (ks : list string)
  : option R :=
  fold_right (fun k acc => if String.eqb key k
                           then match get k amounts with
                                | Some v => opt_add (Some (v / N)) acc
                                | None => acc
                                end
                           else acc) None ks.

(** What a sequence of trials adds under [key]. *)
Definition shares (N : R) (key : string) (trials : list (object R)) : option R :=
  fold_right (fun amounts acc => opt_add (share N key amounts (Object_keys amounts)) acc)
             None trials.

(** A draw that makes any pair of draws acceptable to the loop of
    [gaussRand]. *)
Definition central (u : R) : Prop :=
  0 < (2 * u - 1) * (2 * u - 1) < / 2.
End ExactVocabulary.

(** *** Binary64 values by class *)

(** Not a NaN. *)
Definition not_nan (f : SpecFloat.spec_float) : Prop :=
  match f with SpecFloat.S754_nan => False | _ => True end.

(** A zero, a finite number or an infinity of sign [s]. *)
Definition signed (s : bool) (f : SpecFloat.spec_float) : Prop :=
  match f with
  | SpecFloat.S754_zero s' | SpecFloat.S754_infinity s'
  | SpecFloat.S754_finite s' _ _ => s' = s
  | SpecFloat.S754_nan => False
  end.

(** A double in [[0,1)], the range of [Math.random]. *)
Definition in_unit (u : PrimFloat.float) : Prop :=
  (u >= lit 0)%js = true /\ (lit 1 > u)%js = true.

(** *** Sample inputs in binary64 *)

(** The largest draw of a generator with 52 random bits: 1 - 2^-52. *)
Definition largest_draw : PrimFloat.float :=
  lit (4503599627370495 # 4503599627370496).

(** A trial of the basic income model with [x] for administrative costs. *)
Definition sample_trial (x : Q) : object PrimFloat.float :=
  [("directCosts", lit 1645750000000); ("administrativeCosts", lit x);
   ("productivity", lit 0); ("jkRowling", lit 0)].

(** A collection of 1000 trials that starts with three given ones. *)
Definition sample_collection (x y z : Q) : array (object PrimFloat.float) :=
  map Some ([sample_trial x; sample_trial y; sample_trial z]
              ++ repeat (sample_trial 0) 997).

(** ** The bar charts *)

(** The methods of [Math] that [bars] calls.  [Math.max.apply(Math, xs)]
    and [Math.min.apply(Math, xs)] take the first element of [xs] apart:
    [bars] draws no bar when [xs] is empty. *)
Class JSMathBars (num : Type) : Type := {
  Math_abs : num -> num;
  Math_sign : num -> num;
  Math_max : num -> list num -> num;
  Math_min : num -> list num -> num
}.

Definition Rsign (x : R) : R :=
  if Rgt_dec x 0 then 1%R else if Rlt_dec x 0 then (-1)%R else 0%R.

#[export] Instance exact_bars : JSMathBars R := {|
  Math_abs := Rabs;
  Math_sign := Rsign;
  Math_max := fun x xs => fold_left Rmax xs x;
  Math_min := fun x xs => fold_left Rmin xs x
|}.

Definition float_is_neg_zero (x : PrimFloat.float) : bool :=
  PrimFloat.eqb x PrimFloat.zero && PrimFloat.get_sign x.

Definition float_is_pos_zero (x : PrimFloat.float) : bool :=
  PrimFloat.eqb x PrimFloat.zero && negb (PrimFloat.get_sign x).

(** One step of [Math.max]: a NaN wins, +0 is above -0. *)
Definition float_max_step (highest number : PrimFloat.float) : PrimFloat.float :=
  if PrimFloat.is_nan highest then highest
  else if PrimFloat.is_nan number then number
  else if float_is_pos_zero number && float_is_neg_zero highest then number
  else if PrimFloat.ltb highest number then number
  else highest.

(** One step of [Math.min]: a NaN wins, -0 is below +0. *)
Definition float_min_step (lowest number : PrimFloat.float) : PrimFloat.float :=
  if PrimFloat.is_nan lowest then lowest
  else if PrimFloat.is_nan number then number
  else if float_is_neg_zero number && float_is_pos_zero lowest then number
  else if PrimFloat.ltb number lowest then number
  else lowest.

Definition float_sign (x : PrimFloat.float) : PrimFloat.float :=
  if PrimFloat.ltb PrimFloat.zero x then PrimFloat.one
  else if PrimFloat.ltb x PrimFloat.zero then PrimFloat.opp PrimFloat.one
  else x.

#[export] Instance binary64_bars : JSMathBars PrimFloat.float := {|
  Math_abs := PrimFloat.abs;
  Math_sign := float_sign;
  Math_max := fun x xs => fold_left float_max_step (x :: xs) PrimFloat.neg_infinity;
  Math_min := fun x xs => fold_left float_min_step (x :: xs) PrimFloat.infinity
|}.

(** [keys.sort()]: the strings in ascending order of their code units. *)
Fixpoint insert_key (k : string) (ks : list string) : list string :=
  match ks with
  | [] => [k]
  | k' :: ks' => if String.leb k k' then k :: ks else k' :: insert_key k ks'
  end.

Definition Array_sort (ks : list string) : list string :=
  fold_right insert_key [] ks.

(** An element of the [data] array of [bars]. *)
Record bar (num : Type) : Type := {
  value : num;
  offset : num;
  width : num;
  sign : num;
  category : string
}.

Arguments value {num} _.
Arguments offset {num} _.
Arguments width {num} _.
Arguments sign {num} _.
Arguments category {num} _.

Section Charts.
Context {num : Type} `{JSNumber num} `{JSMathBars num}.
Local Open Scope js_scope.

(** [Object.keys(amounts).sort()] with, for each category,
    [amounts[category]].  A category is an own key, so the [None] branch is
    never taken. *)
Definition sorted_entries (amounts : object num) : list (string * num) :=
  flat_map (fun category => match get category amounts with
                            | Some v => [(category, v)]
                            | None => []
                            end)
           (Array_sort (Object_keys amounts)).

(** The [data] array that [bars] builds and binds to the rows of its
    table.  [maxValue < 0] is written [0 > maxValue].  When both objects are
    empty there is no value, [forEach] runs no iteration and [data] is
    empty. *)
Definition bars_data (amounts amounts2 : object num) : list (bar num) :=
  let entries := sorted_entries amounts in
  let values := map snd entries in
  let values2 := map snd (sorted_entries amounts2) in
  match values ++ values2 with
  | [] => []
  | x :: xs =>
      let maxValue := Math_max x xs in
      let minValue := Math_min x xs in
      let zero :=
        if (minValue > lit 0) || (lit 0 > maxValue) then lit 0
        else - minValue * lit 100 / (maxValue - minValue) in
      map (fun '(category, value) =>
             let scaled := value * lit 100 / (maxValue - minValue) in
             let width := Math_abs scaled in
             let sign := Math_sign scaled in
             {| value := value;
                offset := if sign === lit 1 then zero else zero + scaled;
                width := width;
                sign := sign;
                category := category |})
          entries
  end.

(** The [background-color] of the bar of a row. *)
Definition background_color (d : bar num) : string :=
  if sign d === lit 1 then "red" else "black".

(** The two calls of [bars] in [render], each model's averages scaled
    together with the other's; [None] is the [TypeError] of
    [Object.keys(undefined)] when [run] has not set the averages. *)
Definition render_bars (g : globals)
  : option (list (bar num) * list (bar num)) :=
  match biAmountsAvg g, bjAmountsAvg g with
  | Some bi, Some bj => Some (bars_data bi bj, bars_data bj bi)
  | _, _ => None
  end.
End Charts.

(** ** Vocabulary of the further properties *)

Section MoreVocabulary.
Context {num : Type} `{JSNumber num} `{JSMath num}.

(** The computation [c], run on [rs], returns [a] and leaves [rs'], having
    read exactly the draws [used]: it does the same whatever follows
    them. *)
Definition reads {A : Type} (c : Rand num A) (rs : list num) (a : A)
    (rs' used : list num) : Prop :=
  rs = used ++ rs' /\ forall rest, c (used ++ rest) = Some (a, rest).

(** Two arrays that agree below index [i] and from index [i + n] on, and
    reach index [i]: they differ at most where the next [n] assignments
    from [i] write. *)
Definition overwritten {A : Type} (i n : nat) (a b : array A) : Prop :=
  firstn i a = firstn i b /\ skipn (i + n) a = skipn (i + n) b /\
  i <= length a /\ i <= length b.

(** An object that a call of the model returned on some draws. *)
Definition basicIncome_output (amounts : object num) : Prop :=
  exists rs rs', basicIncomeCostBenefit rs = Some (amounts, rs').

Definition basicJob_output (amounts : object num) : Prop :=
  exists rs rs', basicJobCostBenefit rs = Some (amounts, rs').
End MoreVocabulary.

Section MoreExactVocabulary.
Local Open Scope R_scope.

(** A draw in [[0,1)]. *)
Definition unit_draw (u : R) : Prop := 0 <= u < 1.

(** The sum of [amounts[key]] over the trials that have [key]. *)
Definition component_sum (key : string) (trials : list (object R)) : R :=
  fold_right (fun amounts acc => match get key amounts with
                                 | Some v => v + acc
                                 | None => acc
                                 end) 0 trials.
End MoreExactVocabulary.

(** * Properties *)

(** ** Objects and arrays *)

Section ObjectFacts.
Context {num : Type}.
Implicit Types (o : object num) (key : string) (v : num).

Lemma hasOwnProperty_get key o :
  hasOwnProperty key o = true <-> exists v, get key o = Some v.
Proof.
  unfold hasOwnProperty. destruct (get key o) as [v|].
  - split; [eauto | reflexivity].
  - split; [discriminate | intros [v Hv]; discriminate].
Qed.

(** Every key listed by [Object.keys] is an own property. *)
Lemma get_own_key key o :
  In key (Object_keys o) <-> exists v, get key o = Some v.
Proof.
  induction o as [|[k w] o IH]; simpl.
  - split; [tauto | intros [v Hv]; discriminate].
  - destruct (String.eqb_spec key k) as [->|Hne].
    + split; eauto.
    + rewrite <- IH. split; [intros [Heq|Hin]; [congruence | exact Hin] | tauto].
Qed.

Lemma get_set_same key v o : get key (set key v o) = Some v.
Proof.
  induction o as [|[k w] o IH]; simpl.
  - now rewrite String.eqb_refl.
  - destruct (String.eqb_spec key k) as [->|Hne]; simpl.
    + now rewrite String.eqb_refl.
    + destruct (String.eqb_spec key k); [contradiction | exact IH].
Qed.

Lemma get_set_other key key' v o :
  key <> key' -> get key (set key' v o) = get key o.
Proof.
  intros Hne. induction o as [|[k w] o IH]; simpl.
  - destruct (String.eqb_spec key key'); [contradiction | reflexivity].
  - destruct (String.eqb_spec key' k) as [->|Hk]; simpl.
    + destruct (String.eqb_spec key k); [contradiction | reflexivity].
    + destruct (String.eqb_spec key k); [reflexivity | exact IH].
Qed.

(** Assigning to an existing property leaves the key list as it is; a new
    property is listed last. *)
Lemma Object_keys_set key v o :
  Object_keys (set key v o) =
  if hasOwnProperty key o then Object_keys o else Object_keys o ++ [key].
Proof.
  unfold hasOwnProperty.
  induction o as [|[k w] o IH]; simpl; [reflexivity|].
  destruct (String.eqb_spec key k) as [->|Hne]; simpl; [reflexivity|].
  rewrite IH. now destruct (get key o).
Qed.
End ObjectFacts.

Section ArrayFacts.
Context {A : Type}.

Lemma dense_array_set (P : A -> Prop) i v arr :
  dense P arr -> P v -> i <= length arr ->
  dense P (array_set i v arr) /\
  length (array_set i v arr) = Nat.max (length arr) (S i).
Proof.
  intros Hd Hv. revert arr Hd.
  induction i as [|i IH]; intros [|x t] Hd Hi; simpl in *.
  - split; [repeat constructor; eauto | reflexivity].
  - inversion Hd; subst. split; [constructor; eauto | lia].
  - lia.
  - inversion Hd; subst. destruct (IH t) as [IH1 IH2]; [assumption | lia |].
    split; [constructor; assumption | rewrite IH2; lia].
Qed.

Lemma map_array_set {B : Type} (f : A -> B) i v arr :
  map (option_map f) (array_set i v arr) =
  array_set i (f v) (map (option_map f) arr).
Proof.
  revert arr. induction i as [|i IH]; intros [|x t]; simpl; try reflexivity.
  - now rewrite (IH []).
  - now rewrite IH.
Qed.

Lemma dense_elements (P : A -> Prop) arr :
  dense P arr ->
  arr = map Some (elements arr) /\ Forall P (elements arr) /\
  length (elements arr) = length arr.
Proof.
  induction 1 as [|x t (a & -> & Ha) _ (IH1 & IH2 & IH3)]; simpl.
  - repeat split; constructor.
  - repeat split; [now rewrite <- IH1 | now constructor | now rewrite IH3].
Qed.

Lemma elements_map_Some (l : list A) : elements (map Some l) = l.
Proof. induction l as [|a l IH]; simpl; [reflexivity | now rewrite IH]. Qed.

Lemma array_reduce_elements {B : Type} (f : B -> A -> B) arr init :
  array_reduce f arr init = fold_left f (elements arr) init.
Proof.
  unfold array_reduce. revert init.
  induction arr as [|[a|] t IH]; intros init; simpl; auto.
Qed.
End ArrayFacts.

(** ** The computations, step by step *)

Section RandFacts.
Context {num : Type}.

Lemma bind_Some {A B : Type} (c : Rand num A) (k : A -> Rand num B) rs b rs' :
  bind c k rs = Some (b, rs') <->
  exists a rs1, c rs = Some (a, rs1) /\ k a rs1 = Some (b, rs').
Proof.
  unfold bind. destruct (c rs) as [[a rs1]|].
  - split; [eauto | intros (a' & rs1' & Heq & Hk); now inversion Heq; subst].
  - split; [discriminate | intros (a' & rs1' & Heq & _); discriminate].
Qed.

Lemma ret_Some {A : Type} (a b : A) (rs rs' : list num) :
  ret a rs = Some (b, rs') <-> a = b /\ rs = rs'.
Proof.
  unfold ret. split; [intros Heq; now inversion Heq | intros [-> ->]; reflexivity].
Qed.
End RandFacts.

Ltac rand_inv H :=
  repeat match type of H with
    | bind _ _ _ = Some _ =>
        let a := fresh "a" in let rs := fresh "rs" in
        let H1 := fresh "Hstep" in
        apply bind_Some in H; destruct H as (a & rs & H1 & H)
    | ret _ _ = Some _ =>
        apply ret_Some in H; destruct H as [<- <-]
    end.

Section ModelFacts.
Context {num : Type} `{JSNumber num} `{JSMath num}.
Local Open Scope js_scope.

(** One call of the basic income model, draw by draw. *)
Lemma basicIncomeCostBenefit_inv rs amounts rs' :
  basicIncomeCostBenefit rs = Some (amounts, rs') <->
  exists administrativeCostPerPerson nonWorkerMultiplier productivityMultiplier
         count rs1 rs2 rs3,
    gaussRand (Some (lit 250)) (Some (lit 75)) rs
      = Some (administrativeCostPerPerson, rs1) /\
    uniformRand (- lit 0.10) (lit 0.15) rs1 = Some (nonWorkerMultiplier, rs2) /\
    uniformRand (- lit 0.1) (lit 0.2) rs2 = Some (productivityMultiplier, rs3) /\
    binomRand (nonWorkers nonWorkerMultiplier) (lit 1e-7) rs3 = Some (count, rs') /\
    amounts =
      [("directCosts", numAdults * basicIncome / lit 2);
       ("administrativeCosts", numAdults * administrativeCostPerPerson);
       ("productivity",
         - laborForce * (lit 40 * lit 52 * lit 25) * productivityMultiplier);
       ("jkRowling", - count * lit 1e9)].
Proof.
  unfold basicIncomeCostBenefit, nonWorkers. cbv zeta. split.
  - intros Hrun. rand_inv Hrun.
    repeat eexists; eauto.
  - intros (a & m & pm & c & rs1 & rs2 & rs3 & H1 & H2 & H3 & H4 & ->).
    apply bind_Some; exists a, rs1; split; [exact H1|].
    apply bind_Some; exists m, rs2; split; [exact H2|].
    apply bind_Some; exists pm, rs3; split; [exact H3|].
    apply bind_Some; exists c, rs'; split; [exact H4|].
    reflexivity.
Qed.

(** One call of the basic job model, draw by draw. *)
Lemma basicJobCostBenefit_inv rs amounts rs' :
  basicJobCostBenefit rs = Some (amounts, rs') <->
  exists nonWorkerMultiplier administrativeCostPerDisabledPerson
         administrativeCostPerWorker basicJobHourlyProductivity rs1 rs2 rs3,
    uniformRand (- lit 0.1) (lit 0.15) rs = Some (nonWorkerMultiplier, rs1) /\
    gaussRand (Some (lit 500)) (Some (lit 150)) rs1
      = Some (administrativeCostPerDisabledPerson, rs2) /\
    gaussRand (Some (lit 5000)) (Some (lit 1500)) rs2
      = Some (administrativeCostPerWorker, rs3) /\
    uniformRand (- lit 7.25) (lit 7.25) rs3 = Some (basicJobHourlyProductivity, rs') /\
    let numBasicWorkers :=
      (numAdults - disabledAdults - laborForce) * (lit 1 + nonWorkerMultiplier) in
    amounts =
      [("directCosts", numBasicWorkers * basicIncome);
       ("disabled", disabledAdults * (basicIncome + administrativeCostPerDisabledPerson));
       ("administrativeCosts", numBasicWorkers * administrativeCostPerWorker);
       ("productivity",
         - numBasicWorkers * (lit 40 * lit 50 * basicJobHourlyProductivity))].
Proof.
  unfold basicJobCostBenefit. cbv zeta. split.
  - intros Hrun. rand_inv Hrun.
    repeat eexists; eauto.
  - intros (m & a & b & c & rs1 & rs2 & rs3 & H1 & H2 & H3 & H4 & ->).
    apply bind_Some; exists m, rs1; split; [exact H1|].
    apply bind_Some; exists a, rs2; split; [exact H2|].
    apply bind_Some; exists b, rs3; split; [exact H3|].
    apply bind_Some; exists c, rs'; split; [exact H4|].
    reflexivity.
Qed.

Lemma basicIncomeCostBenefit_keys rs amounts rs' :
  basicIncomeCostBenefit rs = Some (amounts, rs') ->
  Object_keys amounts = basicIncomeKeys.
Proof.
  intros Hrun. apply basicIncomeCostBenefit_inv in Hrun.
  destruct Hrun as (a & m & pm & c & rs1 & rs2 & rs3 & _ & _ & _ & _ & ->).
  reflexivity.
Qed.

Lemma basicJobCostBenefit_keys rs amounts rs' :
  basicJobCostBenefit rs = Some (amounts, rs') ->
  Object_keys amounts = basicJobKeys.
Proof.
  intros Hrun. apply basicJobCostBenefit_inv in Hrun.
  destruct Hrun as (m & a & b & c & rs1 & rs2 & rs3 & _ & _ & _ & _ & ->).
  reflexivity.
Qed.
End ModelFacts.

(** ** The keys of an average *)

Section ReducerKeys.
Context {num : Type} `{JSNumber num}.
Implicit Types (avg amounts : object num).

Lemma hasOwnProperty_keys key (o : object num) :
  hasOwnProperty key o = existsb (String.eqb key) (Object_keys o).
Proof.
  unfold hasOwnProperty. induction o as [|[k w] o IH]; simpl; [reflexivity|].
  destruct (String.eqb key k); simpl; [reflexivity | exact IH].
Qed.

Lemma amountsAvgReducer_keys N avg amounts :
  Object_keys (amountsAvgReducer N avg amounts) =
  add_keys (Object_keys avg) (Object_keys amounts).
Proof.
  unfold amountsAvgReducer, add_keys.
  assert (Hown : forall k, In k (Object_keys amounts) -> exists v, get k amounts = Some v)
    by (intros k; apply get_own_key).
  revert avg Hown. generalize (Object_keys amounts) as ks.
  induction ks as [|k ks IH]; intros avg Hown; simpl; [reflexivity|].
  destruct (Hown k) as [v Hv]; [now left|]. rewrite Hv.
  rewrite <- hasOwnProperty_keys.
  assert (Hks : forall k', In k' ks -> exists v', get k' amounts = Some v')
    by (intros k' Hin; apply Hown; now right).
  unfold hasOwnProperty. destruct (get k avg) as [a|] eqn:Ha.
  - rewrite IH by exact Hks. rewrite Object_keys_set.
    unfold hasOwnProperty. now rewrite Ha.
  - rewrite IH by exact Hks. rewrite Object_keys_set.
    unfold hasOwnProperty. now rewrite Ha.
Qed.

(** Trials that all list the keys [ks], in that order and without
    repetition, average to an object that lists [ks]. *)
Lemma average_keys N (ks : list string) (trials : list (object num)) :
  add_keys [] ks = ks -> add_keys ks ks = ks ->
  trials <> [] -> Forall (fun a => Object_keys a = ks) trials ->
  Object_keys (fold_left (amountsAvgReducer N) trials empty_object) = ks.
Proof.
  intros Hfirst Hnext Hne Hall.
  destruct trials as [|a trials]; [contradiction|].
  inversion Hall as [|? ? Ha Hrest]; subst. cbn [fold_left].
  assert (Hstart : Object_keys (amountsAvgReducer N empty_object a) = Object_keys a)
    by (rewrite amountsAvgReducer_keys; exact Hfirst).
  clear Hne Hall. revert Hstart.
  generalize (amountsAvgReducer N empty_object a) as avg.
  induction Hrest as [|b trials Hb _ IH]; intros avg Hstart; cbn [fold_left];
    [exact Hstart|].
  apply IH. rewrite amountsAvgReducer_keys, Hstart, Hb. exact Hnext.
Qed.

Lemma add_keys_In key (ks : list string) :
  forall ks0, In key (add_keys ks0 ks) <-> In key ks0 \/ In key ks.
Proof.
  unfold add_keys. induction ks as [|k ks IH]; intros ks0; cbn [fold_left].
  - simpl. tauto.
  - rewrite IH. destruct (existsb (String.eqb k) ks0) eqn:Hk.
    + apply existsb_exists in Hk as (k' & Hin & Heq).
      apply String.eqb_eq in Heq. subst k'. simpl.
      split; [tauto | intros [H0|[->|H0]]; tauto].
    + rewrite in_app_iff. simpl. split; [intros [[H0|[->|[]]]|H0] | intros [H0|[->|H0]]]; tauto.
Qed.

(** The keys of an average are those of its start and of the trials. *)
Lemma average_keys_In N key (trials : list (object num)) :
  forall avg,
    In key (Object_keys (fold_left (amountsAvgReducer N) trials avg)) <->
    In key (Object_keys avg) \/ exists a, In a trials /\ In key (Object_keys a).
Proof.
  induction trials as [|a trials IH]; intros avg; cbn [fold_left].
  - split; [tauto | intros [H0|(a & [] & _)]; exact H0].
  - rewrite IH, amountsAvgReducer_keys, add_keys_In. split.
    + intros [[H0|H0]|(b & Hb & Hk)]; [tauto | right; exists a; simpl; tauto |].
      right. exists b. simpl. tauto.
    + intros [H0|(b & [->|Hb] & Hk)]; [tauto | tauto |].
      right. exists b. tauto.
Qed.
End ReducerKeys.

(** ** The globals between two calls of [run] *)

Section RunFacts.
Context {num : Type} `{JSNumber num} `{JSMath num}.
Local Open Scope js_scope.

Lemma coherent_initial : coherent initial_globals.
Proof. split; simpl; try reflexivity; constructor. Qed.

Lemma run_loop_spec n :
  forall i g rs g' rs',
    coherent g ->
    i <= length (biAmounts g) -> i <= length (bjAmounts g) ->
    run_loop n i g rs = Some (g', rs') ->
    coherent g' /\
    length (biAmounts g') = Nat.max (length (biAmounts g)) (i + n) /\
    length (bjAmounts g') = Nat.max (length (bjAmounts g)) (i + n) /\
    biAmountsAvg g' = biAmountsAvg g /\ bjAmountsAvg g' = bjAmountsAvg g.
Proof.
  induction n as [|n IH]; intros i g rs g' rs' Hg Hbi Hbj Hrun; simpl in Hrun.
  - apply ret_Some in Hrun as [<- <-].
    repeat split; try apply Hg; lia.
  - rand_inv Hrun. rename a into bi, a0 into bj.
    destruct Hg as [Hdbi Hdbj Htbi Htbj].
    apply basicIncomeCostBenefit_keys in Hstep.
    apply basicJobCostBenefit_keys in Hstep0.
    destruct (dense_array_set _ i bi _ Hdbi Hstep Hbi) as [Hdbi' Hlbi].
    destruct (dense_array_set _ i bj _ Hdbj Hstep0 Hbj) as [Hdbj' Hlbj].
    apply IH in Hrun; cbn [biAmounts bjAmounts biTotals bjTotals
                            biAmountsAvg bjAmountsAvg] in *.
    + destruct Hrun as (Hg' & H1 & H2 & H3 & H4).
      repeat split; try apply Hg'; try assumption; lia.
    + split; cbn [biAmounts bjAmounts biTotals bjTotals]; try assumption.
      * now rewrite map_array_set, Htbi.
      * now rewrite map_array_set, Htbj.
    + lia.
    + lia.
Qed.

Lemma run_with_inv N g rs g' rs' :
  run_with N g rs = Some (g', rs') <->
  exists g1,
    run_loop (Z.to_nat N) 0 g rs = Some (g1, rs') /\
    g' = {| biAmounts := biAmounts g1;
            biTotals := biTotals g1;
            bjAmounts := bjAmounts g1;
            bjTotals := bjTotals g1;
            biAmountsAvg :=
              Some (array_reduce (amountsAvgReducer (lit (inject_Z N)))
                                 (biAmounts g1) empty_object);
            bjAmountsAvg :=
              Some (array_reduce (amountsAvgReducer (lit (inject_Z N)))
                                 (bjAmounts g1) empty_object) |}.
Proof.
  unfold run_with. split.
  - intros Hrun. rand_inv Hrun. eauto.
  - intros (g1 & Hloop & ->). apply bind_Some. exists g1, rs'. split; [exact Hloop | reflexivity].
Qed.

Lemma run_coherent g rs g' rs' :
  coherent g -> length (biAmounts g) <= 1000 -> length (bjAmounts g) <= 1000 ->
  run g rs = Some (g', rs') ->
  coherent g' /\ length (biAmounts g') = 1000 /\ length (bjAmounts g') = 1000.
Proof.
  intros Hg Hbi Hbj Hrun. apply run_with_inv in Hrun as (g1 & Hloop & ->).
  apply run_loop_spec in Hloop; [|assumption|lia|lia].
  destruct Hloop as ([H1 H2 H3 H4] & Hlbi & Hlbj & _).
  change (Z.to_nat 1000) with 1000%nat in *.
  repeat split; cbn [biAmounts bjAmounts biTotals bjTotals]; try assumption; lia.
Qed.

Lemma reachable_coherent g :
  reachable g ->
  coherent g /\ length (biAmounts g) <= 1000 /\ length (bjAmounts g) <= 1000.
Proof.
  induction 1 as [|g rs g' rs' _ (Hg & Hbi & Hbj) Hrun].
  - split; [apply coherent_initial | simpl; lia].
  - destruct (run_coherent _ _ _ _ Hg Hbi Hbj Hrun) as (Hg' & -> & ->).
    split; [exact Hg' | lia].
Qed.
End RunFacts.

(** ** The rejection loop, on any numbers *)

Section LoopFacts.
Context {num : Type} `{JSNumber num} `{JSMath num}.
Local Open Scope js_scope.

(** Induction on a list of draws, two draws at a time. *)
Lemma draws_pair_ind (P : list num -> Prop) :
  P [] -> (forall u, P [u]) ->
  (forall u1 u2 rs, P rs -> P (u1 :: u2 :: rs)) ->
  forall rs, P rs.
Proof.
  intros Hnil Hone Hpair rs.
  enough (Hboth : P rs /\ forall u, P (u :: rs)) by apply Hboth.
  induction rs as [|u rs [IH1 IH2]]; split; auto.
Qed.

(** The loop leaves with the [z1], [z2] and [radius] of two consecutive
    draws, on which both tests of its condition are false; the draws before
    them were rejected. *)
Lemma gaussRand_loop_inv rs z1 z2 radius rs' :
  gaussRand_loop rs = Some ((z1, z2, radius), rs') ->
  exists rejected u1 u2,
    rs = rejected ++ u1 :: u2 :: rs' /\
    z1 = lit 2 * u1 - lit 1 /\ z2 = lit 2 * u2 - lit 1 /\
    radius = z1 * z1 + z2 * z2 /\
    (radius >= lit 1) = false /\ (radius === lit 0) = false.
Proof.
  revert rs. apply (draws_pair_ind (fun rs => gaussRand_loop rs = _ -> _)).
  - discriminate.
  - discriminate.
  - intros u1 u2 rs IH Hloop. cbn [gaussRand_loop] in Hloop. cbv zeta in Hloop.
    match type of Hloop with
    | (if ?ge || ?eq then _ else _) = _ =>
        destruct ge eqn:Hge; [|destruct eq eqn:Heq]; cbn [orb] in Hloop
    end.
    + destruct (IH Hloop) as (rej & v1 & v2 & -> & Hrest).
      exists (u1 :: u2 :: rej), v1, v2. split; [reflexivity | exact Hrest].
    + destruct (IH Hloop) as (rej & v1 & v2 & -> & Hrest).
      exists (u1 :: u2 :: rej), v1, v2. split; [reflexivity | exact Hrest].
    + inversion Hloop; subst. exists [], u1, u2. repeat split; assumption.
Qed.

(** A pair of draws on which both tests are false is accepted at once. *)
Lemma gaussRand_loop_accept u1 u2 rs :
  let z1 := lit 2 * u1 - lit 1 in
  let z2 := lit 2 * u2 - lit 1 in
  let radius := z1 * z1 + z2 * z2 in
  (radius >= lit 1) = false -> (radius === lit 0) = false ->
  gaussRand_loop (u1 :: u2 :: rs) = Some ((z1, z2, radius), rs).
Proof.
  intros z1 z2 radius Hge Heq. cbn [gaussRand_loop]. cbv zeta.
  fold z1 z2. fold radius. now rewrite Hge, Heq.
Qed.

Lemma gaussRand_inv mu sigma rs v rs' :
  gaussRand (Some mu) (Some sigma) rs = Some (v, rs') <->
  exists z1 z2 radius,
    gaussRand_loop rs = Some ((z1, z2, radius), rs') /\
    v = (z1 * Math_sqrt (- lit 2 * Math_log radius / radius)) * sigma + mu.
Proof.
  unfold gaussRand. split.
  - intros Hrun. apply bind_Some in Hrun as ([[z1 z2] radius] & rs1 & Hloop & Hret).
    apply ret_Some in Hret as [<- <-]. eauto.
  - intros (z1 & z2 & radius & Hloop & ->).
    apply bind_Some. exists (z1, z2, radius), rs'. split; [exact Hloop | reflexivity].
Qed.

Lemma binomRand_inv N p rs v rs' :
  binomRand N p rs = Some (v, rs') <->
  exists g,
    gaussRand (Some (N * p)) (Some (Math_sqrt (N * p * (lit 1 - p)))) rs = Some (g, rs') /\
    v = if Math_round g > lit 0 then Math_round g else lit 0.
Proof.
  unfold binomRand. split.
  - intros Hrun. rand_inv Hrun. eauto.
  - intros (g & Hg & ->). apply bind_Some. exists g, rs'. split; [exact Hg | reflexivity].
Qed.

(** On every number instance the count is either a rounded draw that
    tested positive, or the literal 0. *)
Lemma binomRand_clamped N p rs v rs' :
  binomRand N p rs = Some (v, rs') -> (v > lit 0) = true \/ v = lit 0.
Proof.
  intros Hrun. apply binomRand_inv in Hrun as (g & _ & ->).
  destruct (Math_round g > lit 0) eqn:Hpos; [left; exact Hpos | right; reflexivity].
Qed.

Lemma uniformRand_inv min max rs v rs' :
  uniformRand min max rs = Some (v, rs') <->
  exists u, rs = u :: rs' /\ v = u * (max - min) + min.
Proof.
  unfold uniformRand, bind, Math_random, ret. destruct rs as [|u rs].
  - split; [discriminate | intros (u & Hrs & _); discriminate].
  - split.
    + intros Heq. inversion Heq; subst. eauto.
    + intros (u' & Hrs & ->). now inversion Hrs; subst.
Qed.
End LoopFacts.

(** ** The run, on any numbers *)

(** C6: in every call of the basic income model that returns, whatever the
    draws, the [directCosts] component is [numAdults * basicIncome / 2], an
    expression of the constants alone. *)
Theorem basicIncome_directCosts_fixed
    {num : Type} `{JSNumber num} `{JSMath num} (rs : list num) amounts rs' :
  basicIncomeCostBenefit rs = Some (amounts, rs') ->
  get "directCosts" amounts = Some (numAdults * basicIncome / lit 2)%js.
Proof.
  intros Hrun. apply basicIncomeCostBenefit_inv in Hrun.
  destruct Hrun as (a & m & pm & c & rs1 & rs2 & rs3 & _ & _ & _ & _ & ->).
  reflexivity.
Qed.

(** After a call of [run] each of the four arrays holds 1000 entries
    without holes, the totals being those of the trials. *)
Lemma run_1000_trials_facts
    {num : Type} `{JSNumber num} `{JSMath num} (g : globals) rs g' rs' :
  reachable g -> run g rs = Some (g', rs') ->
  exists bi bj,
    length bi = 1000 /\ length bj = 1000 /\
    biAmounts g' = map Some bi /\ biTotals g' = map Some (map trial_total bi) /\
    bjAmounts g' = map Some bj /\ bjTotals g' = map Some (map trial_total bj).
Proof.
  intros Hreach Hrun.
  destruct (reachable_coherent g Hreach) as (Hg & Hbi & Hbj).
  destruct (run_coherent _ _ _ _ Hg Hbi Hbj Hrun) as ([Hdbi Hdbj Htbi Htbj] & Hlbi & Hlbj).
  destruct (dense_elements _ _ Hdbi) as (Ebi & Kbi & Lbi).
  destruct (dense_elements _ _ Hdbj) as (Ebj & Kbj & Lbj).
  exists (elements (biAmounts g')), (elements (bjAmounts g')).
  repeat split; try lia; try assumption.
  - rewrite Htbi, Ebi at 1. rewrite !map_map. reflexivity.
  - rewrite Htbj, Ebj at 1. rewrite !map_map. reflexivity.
Qed.

(** C7: a call of [run], from the initial globals or after earlier calls,
    leaves exactly 1000 trials and 1000 totals for each model, and averages
    whose keys are exactly those of the model, whatever the draws. *)
Theorem run_1000_trials_and_keys
    {num : Type} `{JSNumber num} `{JSMath num} (g : globals) rs g' rs' :
  reachable g -> run g rs = Some (g', rs') ->
  (exists bi bj,
     length bi = 1000 /\ length bj = 1000 /\
     biAmounts g' = map Some bi /\ biTotals g' = map Some (map trial_total bi) /\
     bjAmounts g' = map Some bj /\ bjTotals g' = map Some (map trial_total bj)) /\
  (exists biAvg bjAvg,
     biAmountsAvg g' = Some biAvg /\ Object_keys biAvg = basicIncomeKeys /\
     bjAmountsAvg g' = Some bjAvg /\ Object_keys bjAvg = basicJobKeys).
Proof.
  intros Hreach Hrun.
  destruct (reachable_coherent g Hreach) as (Hg & Hbi & Hbj).
  destruct (run_coherent _ _ _ _ Hg Hbi Hbj Hrun) as ([Hdbi Hdbj Htbi Htbj] & Hlbi & Hlbj).
  destruct (dense_elements _ _ Hdbi) as (Ebi & Kbi & Lbi).
  destruct (dense_elements _ _ Hdbj) as (Ebj & Kbj & Lbj).
  split.
  - exact (run_1000_trials_facts g rs g' rs' Hreach Hrun).
  - apply run_with_inv in Hrun as (g1 & _ & Hg').
    rewrite Hg' in *. cbn [biAmounts bjAmounts biAmountsAvg bjAmountsAvg] in *.
    do 2 eexists. split; [reflexivity|]. split; [|split; [reflexivity|]].
    + rewrite array_reduce_elements. apply average_keys; try reflexivity; try assumption.
      intros Hnil. rewrite Hnil in Lbi. simpl in Lbi. lia.
    + rewrite array_reduce_elements. apply average_keys; try reflexivity; try assumption.
      intros Hnil. rewrite Hnil in Lbj. simpl in Lbj. lia.
Qed.

(** ** Exact arithmetic *)

Section Exact.
Local Open Scope R_scope.

Lemma Rgeb_spec x y : reflect (x >= y) (Rgeb x y).
Proof. unfold Rgeb. destruct (Rge_dec x y); now constructor. Qed.

Lemma Rgtb_spec x y : reflect (x > y) (Rgtb x y).
Proof. unfold Rgtb. destruct (Rgt_dec x y); now constructor. Qed.

Lemma Reqb_spec x y : reflect (x = y) (Reqb x y).
Proof. unfold Reqb. destruct (Req_dec_T x y); now constructor. Qed.

Lemma lit_Z (n : Z) : @lit R _ (inject_Z n) = IZR n.
Proof. cbn [lit exact_number]. unfold Q2R, inject_Z. cbn [Qnum Qden]. lra. Qed.
End Exact.

(** Reads the operators of the script as operators on [R], and the
    literals as quotients of integers. *)
Ltac read_literals :=
  repeat match goal with
    | |- context [Q2R ?q] =>
        let n := eval vm_compute in (Qnum q) in
        let d := eval vm_compute in (Qden q) in
        change (Q2R q) with (IZR n * / IZR (Zpos d))%R
    | H : context [Q2R ?q] |- _ =>
        let n := eval vm_compute in (Qnum q) in
        let d := eval vm_compute in (Qden q) in
        change (Q2R q) with (IZR n * / IZR (Zpos d))%R in H
    end.

Ltac exact_arith :=
  cbn [lit js_add js_sub js_mul js_div js_neg js_ge js_gt js_strict_eq
       Math_sqrt Math_log Math_round exact_number exact_math] in *;
  read_literals.

(** The fixed [directCosts] of the basic income model is 1.64575e12. *)
Example directCosts_exact :
  (@numAdults R _ * basicIncome / lit 2)%js = 1645750000000%R.
Proof. unfold numAdults, basicIncome. exact_arith. lra. Qed.

Section ExactGenerators.
Local Open Scope R_scope.

(** The two tests of the loop, over the reals. *)
Lemma loop_tests_false (z1 z2 radius : R) :
  radius = z1 * z1 + z2 * z2 ->
  (radius >= lit 1)%js = false -> (radius === lit 0)%js = false ->
  0 < radius < 1.
Proof.
  intros Hr Hge Heq. exact_arith.
  destruct (Rgeb_spec radius (1 * / 1)); [discriminate|].
  destruct (Reqb_spec radius (0 * / 1)); [discriminate|].
  nra.
Qed.

Lemma loop_tests_accept (radius : R) :
  0 < radius < 1 ->
  (radius >= lit 1)%js = false /\ (radius === lit 0)%js = false.
Proof.
  intros Hr. exact_arith.
  destruct (Rgeb_spec radius (1 * / 1)); [lra|].
  destruct (Reqb_spec radius (0 * / 1)); [lra|].
  split; reflexivity.
Qed.

(** C4, as the code has it: on every number instance [uniformRand(min,
    max)] consumes one draw [u] and returns [u * (max - min) + min]; over
    exact arithmetic, for [min < max] and [u] in [[0,1)], this is
    [min + u*(max-min)] and lies in [[min, max)]. *)
Theorem uniformRand_exact_range :
  (forall (num : Type) (HN : JSNumber num) (min max u : num) (rs : list num),
     uniformRand min max (u :: rs) = Some (u * (max - min) + min, rs)%js) /\
  (forall (min max u : R) (rs : list R),
     min < max -> 0 <= u < 1 ->
     uniformRand min max (u :: rs) = Some (min + u * (max - min), rs) /\
     min <= min + u * (max - min) < max).
Proof.
  split.
  - intros num HN min max u rs. reflexivity.
  - intros min max u rs Hlt Hu. split; [|nra].
    apply uniformRand_inv. exists u. split; [reflexivity|].
    exact_arith. ring.
Qed.

Lemma gaussRand_sigma_0 (mu : R) (rs : list R) v rs' :
  gaussRand (Some mu) (Some 0) rs = Some (v, rs') -> v = mu.
Proof.
  intros Hrun. apply gaussRand_inv in Hrun as (z1 & z2 & radius & _ & ->).
  exact_arith. ring.
Qed.

Lemma clamp_Rmax (count : R) :
  (if (count > lit 0)%js then count else lit 0) = Rmax count 0.
Proof.
  exact_arith. destruct (Rgtb_spec count (0 * / 1)).
  - rewrite Rmax_left; lra.
  - rewrite Rmax_right; lra.
Qed.

Lemma Rround_0 : Rround 0 = 0.
Proof. unfold Rround. rewrite (Zfloor_eq 0); [reflexivity | simpl; lra]. Qed.

(** C5: [binomRand(N, p)] is the rounded draw of
    [gaussRand(N*p, sqrt(N*p*(1-p)))] with negative values replaced by 0;
    it is never negative, and it is 0 when [N = 0] or [p = 0], whatever the
    draws. *)
Theorem binomRand_rounds_and_clamps (N p : R) (rs : list R) v rs' :
  0 <= N -> 0 <= p <= 1 ->
  binomRand N p rs = Some (v, rs') ->
  (exists g,
     gaussRand (Some (N * p)) (Some (sqrt (N * p * (1 - p)))) rs = Some (g, rs') /\
     v = Rmax (Rround g) 0) /\
  0 <= v /\
  (N = 0 \/ p = 0 -> v = 0).
Proof.
  intros HN Hp Hrun. apply binomRand_inv in Hrun as (g & Hg & ->).
  rewrite clamp_Rmax. exact_arith.
  replace (1 * / 1 - p) with (1 - p) in Hg by lra.
  split; [exists g; split; [exact Hg | reflexivity]|].
  split; [apply Rmax_r|].
  intros Hzero.
  assert (Hmu : N * p = 0) by (destruct Hzero as [-> | ->]; ring).
  rewrite Hmu, Rmult_0_l, sqrt_0 in Hg.
  apply gaussRand_sigma_0 in Hg. subst g.
  rewrite Rround_0. apply Rmax_left. lra.
Qed.

(** C10: with [sigma = 0], [gaussRand] returns [mu] on every sequence of
    draws on which its loop ends; hence, when [N*p*(1-p) = 0],
    [binomRand(N, p)] is [max(round(N*p), 0)] on every such sequence, the
    same value for any two of them. *)
Theorem gaussRand_zero_sigma_deterministic (mu N p : R) :
  (forall rs v rs', gaussRand (Some mu) (Some 0) rs = Some (v, rs') -> v = mu) /\
  (N * p * (1 - p) = 0 ->
   (forall rs v rs',
      binomRand N p rs = Some (v, rs') -> v = Rmax (Rround (N * p)) 0) /\
   (forall rs1 v1 rs1' rs2 v2 rs2',
      binomRand N p rs1 = Some (v1, rs1') -> binomRand N p rs2 = Some (v2, rs2') ->
      v1 = v2)).
Proof.
  split; [intros rs v rs'; apply gaussRand_sigma_0|].
  intros Hvar.
  assert (Hvalue : forall rs v rs',
             binomRand N p rs = Some (v, rs') -> v = Rmax (Rround (N * p)) 0).
  { intros rs v rs' Hrun. apply binomRand_inv in Hrun as (g & Hg & ->).
    rewrite clamp_Rmax. exact_arith.
    replace (1 * / 1 - p) with (1 - p) in Hg by lra.
    rewrite Hvar, sqrt_0 in Hg. apply gaussRand_sigma_0 in Hg. now subst g. }
  split; [exact Hvalue|].
  intros rs1 v1 rs1' rs2 v2 rs2' H1 H2.
  rewrite (Hvalue _ _ _ H1), (Hvalue _ _ _ H2). reflexivity.
Qed.
End ExactGenerators.

(** ** The aggregation, over exact arithmetic *)

Section ExactAggregation.
Local Open Scope R_scope.
Implicit Types (avg amounts : object R) (key : string).




Lemma trial_total_sum amounts :
  trial_total amounts = keyed_sum amounts (Object_keys amounts) / 1000000000000.
Proof.
  unfold trial_total.
  enough (Hgen : forall ks init,
             fold_left (fun total key => match get key amounts with
                                         | Some v => (v / lit 1e12 + total)%js
                                         | None => total
                                         end) ks init
             = init + keyed_sum amounts ks / 1000000000000).
  { rewrite Hgen. exact_arith. lra. }
  induction ks as [|k ks IH]; intros init; cbn [fold_left keyed_sum fold_right].
  - lra.
  - fold (keyed_sum amounts ks). rewrite IH.
    destruct (get k amounts) as [v|]; exact_arith; lra.
Qed.



End ExactAggregation.

(** ** Order of the trials, over exact arithmetic *)

Section ExactOrder.
Local Open Scope R_scope.

Lemma opt_add_assoc x y z : opt_add (opt_add x y) z = opt_add x (opt_add y z).
Proof.
  destruct x as [a|], y as [b|], z as [c|]; cbn [opt_add]; try reflexivity.
  f_equal. ring.
Qed.

Lemma opt_add_comm x y : opt_add x y = opt_add y x.
Proof.
  destruct x as [a|], y as [b|]; cbn [opt_add]; try reflexivity.
  f_equal. ring.
Qed.

Lemma opt_add_None_r x : opt_add x None = x.
Proof. now destruct x. Qed.

Lemma amountsAvgReducer_get N key (avg amounts : object R) :
  get key (amountsAvgReducer N avg amounts) =
  opt_add (get key avg) (share N key amounts (Object_keys amounts)).
Proof.
  unfold amountsAvgReducer. generalize (Object_keys amounts) as ks.
  intros ks. revert avg.
  induction ks as [|k ks IH]; intros avg; cbn [fold_left share fold_right].
  - now rewrite opt_add_None_r.
  - fold (share N key amounts ks).
    destruct (get k amounts) as [v|] eqn:Hv.
    + destruct (String.eqb_spec key k) as [->|Hne].
      * destruct (get k avg) as [a|] eqn:Ha; rewrite IH, get_set_same;
          exact_arith; now rewrite <- opt_add_assoc.
      * destruct (get k avg) as [a|] eqn:Ha; rewrite IH, get_set_other by exact Hne;
          reflexivity.
    + rewrite IH. now destruct (String.eqb key k).
Qed.

Lemma average_get N key (trials : list (object R)) avg :
  get key (fold_left (amountsAvgReducer N) trials avg) =
  opt_add (get key avg) (shares N key trials).
Proof.
  revert avg. induction trials as [|a trials IH]; intros avg;
    cbn [fold_left shares fold_right].
  - now rewrite opt_add_None_r.
  - fold (shares N key trials).
    now rewrite IH, amountsAvgReducer_get, opt_add_assoc.
Qed.

Lemma shares_Permutation N key (l1 l2 : list (object R)) :
  Permutation l1 l2 -> shares N key l1 = shares N key l2.
Proof.
  induction 1 as [|a l1 l2 _ IH|a b l|l1 l2 l3 _ IH1 _ IH2];
    cbn [shares fold_right].
  - reflexivity.
  - fold (shares N key l1) (shares N key l2). now rewrite IH.
  - fold (shares N key l).
    rewrite <- !opt_add_assoc. f_equal. apply opt_add_comm.
  - now rewrite IH1.
Qed.

Lemma elements_Permutation {A : Type} (arr1 arr2 : array A) :
  Permutation arr1 arr2 -> Permutation (elements arr1) (elements arr2).
Proof.
  induction 1 as [|x l1 l2 _ IH|x y l|l1 l2 l3 _ IH1 _ IH2]; cbn [elements flat_map].
  - constructor.
  - now apply Permutation_app_head.
  - rewrite !app_assoc. apply Permutation_app_tail. apply Permutation_app_comm.
  - now transitivity (elements l2).
Qed.

(** C3, as the code has it: the averages of a trial collection and of any
    permutation of it have the same keys, on every number instance, and
    over exact arithmetic the keys are mapped to the same values. *)
Theorem average_order_independent_exact :
  (forall (num : Type) (HN : JSNumber num) (N : num)
          (arr1 arr2 : array (object num)),
     Permutation arr1 arr2 ->
     forall key,
       In key (Object_keys (array_reduce (amountsAvgReducer N) arr1 empty_object)) <->
       In key (Object_keys (array_reduce (amountsAvgReducer N) arr2 empty_object))) /\
  (forall (N : R) (arr1 arr2 : array (object R)),
     Permutation arr1 arr2 ->
     forall key,
       get key (array_reduce (amountsAvgReducer N) arr1 empty_object) =
       get key (array_reduce (amountsAvgReducer N) arr2 empty_object)).
Proof.
  split.
  - intros num HN N arr1 arr2 Hperm key.
    apply elements_Permutation in Hperm.
    rewrite !array_reduce_elements, !average_keys_In.
    split; intros [H0|(a & Ha & Hk)]; try tauto; right; exists a; split; try exact Hk.
    + now apply (Permutation_in _ Hperm).
    + now apply (Permutation_in _ (Permutation_sym Hperm)).
  - intros N arr1 arr2 Hperm key. rewrite !array_reduce_elements, !average_get.
    f_equal. apply shares_Permutation. now apply elements_Permutation.
Qed.
End ExactOrder.

(** ** Binary64 *)

(** The literals and [Math.round] of the binary64 instance on known
    values. *)
Example binary64_literals :
  (lit 0.1 + lit 0.2 === (lit 0.3 : PrimFloat.float))%js = false /\
  (lit 0.5 + lit 0.25 === (lit 0.75 : PrimFloat.float))%js = true /\
  (numAdults * basicIncome / lit 2 === (lit 1645750000000 : PrimFloat.float))%js = true.
Proof. split; [|split]; vm_compute; reflexivity. Qed.

Example float_round_samples :
  map float_round [lit 2.5; - lit 2.5; lit 4.68; - lit 7.51; lit 0.5; lit 227e6]%js =
  [lit 3; - lit 2; lit 5; - lit 8; lit 1; lit 227e6]%js.
Proof. vm_compute. reflexivity. Qed.

(** C4 in binary64: with [min = 2], [max = 3] and the draw [1 - 2^-52],
    which is in [[0,1)], the sum [u * (max - min) + min] rounds to 3, so the
    result is [max] itself and not below it. *)
Lemma uniformRand_binary64_reaches_max :
  (largest_draw >= lit 0)%js = true /\ (lit 1 > largest_draw)%js = true /\
  js_gt (lit 3 : PrimFloat.float) (lit 2) = true /\
  uniformRand (lit 2) (lit 3) [largest_draw] = Some (lit 3, []) /\
  js_gt (lit 3 : PrimFloat.float) (lit 3) = false.
Proof.
  split; [|split; [|split; [|split]]]; vm_compute; reflexivity.
Qed.

(** C3 in binary64: two collections of 1000 trials, one a permutation of
    the other, whose averages differ under [administrativeCosts]:
    (0.1 + 0.2) + 0.3 and (0.3 + 0.2) + 0.1 round to different doubles. *)
Lemma average_binary64_depends_on_order :
  Permutation (sample_collection 100 200 300) (sample_collection 300 200 100) /\
  exists a b,
    get "administrativeCosts"
        (array_reduce (amountsAvgReducer (lit 1000))
                      (sample_collection 100 200 300) empty_object) = Some a /\
    get "administrativeCosts"
        (array_reduce (amountsAvgReducer (lit 1000))
                      (sample_collection 300 200 100) empty_object) = Some b /\
    (a === b)%js = false.
Proof.
  split.
  - unfold sample_collection. apply Permutation_map, Permutation_app_tail.
    eapply perm_trans; [apply perm_swap|].
    eapply perm_trans; [apply perm_skip, perm_swap|].
    apply perm_swap.
  - do 2 eexists. split; [|split]; vm_compute; reflexivity.
Qed.

(** ** The rejection loop in binary64 *)

Section Rounding.
Import SpecFloat.
Variables prec emax : Z.

Lemma shr_1_nonneg mrs : (0 <= shr_m mrs)%Z -> (0 <= shr_m (shr_1 mrs))%Z.
Proof.
  destruct mrs as [m r s]. cbn [shr_m shr_1].
  destruct m as [|[p|p|]|[p|p|]]; cbn [shr_m]; lia.
Qed.

Lemma iter_shr_1_nonneg p :
  forall mrs, (0 <= shr_m mrs)%Z -> (0 <= shr_m (iter_pos shr_1 p mrs))%Z.
Proof.
  induction p as [p IH|p IH|]; intros mrs Hm; cbn [iter_pos].
  - apply IH, IH, shr_1_nonneg, Hm.
  - apply IH, IH, Hm.
  - apply shr_1_nonneg, Hm.
Qed.

Lemma shr_fexp_nonneg m e l :
  (0 <= m)%Z -> (0 <= shr_m (fst (shr_fexp prec emax m e l)))%Z.
Proof.
  intros Hm. unfold shr_fexp, shr.
  assert (H0 : (0 <= shr_m (shr_record_of_loc m l))%Z)
    by (destruct l as [|[| |]]; exact Hm).
  destruct (_ - e)%Z; cbn [fst]; try exact H0.
  apply iter_shr_1_nonneg, H0.
Qed.

Lemma round_nearest_even_nonneg m l :
  (0 <= m)%Z -> (0 <= round_nearest_even m l)%Z.
Proof.
  intros Hm. unfold round_nearest_even.
  destruct l as [|[| |]]; try lia. destruct (Z.even m); lia.
Qed.

(** Rounding a non-negative mantissa never gives a NaN and keeps the
    sign. *)
Lemma binary_round_aux_signed s m e l :
  (0 <= m)%Z -> signed s (binary_round_aux prec emax s m e l).
Proof.
  intros Hm. unfold binary_round_aux.
  pose proof (shr_fexp_nonneg m e l Hm) as H1.
  destruct (shr_fexp prec emax m e l) as [mrs' e']. cbn [fst] in H1.
  pose proof (shr_fexp_nonneg _ e' loc_Exact
                (round_nearest_even_nonneg _ (loc_of_shr_record mrs') H1)) as H2.
  destruct (shr_fexp prec emax _ e' loc_Exact) as [mrs'' e'']. cbn [fst] in H2.
  destruct (shr_m mrs'') as [|p|p]; [reflexivity| |lia].
  destruct (e'' <=? emax - prec)%Z; reflexivity.
Qed.

Lemma signed_not_nan s f : signed s f -> not_nan f.
Proof. now destruct f. Qed.

Lemma binary_round_signed s m e : signed s (binary_round prec emax s m e).
Proof.
  unfold binary_round. destruct (shl_align m e _) as [mz ez].
  apply binary_round_aux_signed. lia.
Qed.

Lemma binary_normalize_not_nan m e szero :
  not_nan (binary_normalize prec emax m e szero).
Proof.
  destruct m as [|p|p]; cbn [binary_normalize]; [exact I| |];
    eapply signed_not_nan, binary_round_signed.
Qed.

Lemma SFmul_finite_not_nan s m e y :
  not_nan y -> not_nan (SFmul prec emax (S754_finite s m e) y).
Proof.
  intros Hy. destruct y as [sy|sy| |sy my ey]; cbn [SFmul]; try exact I; try contradiction.
  eapply signed_not_nan, binary_round_aux_signed. lia.
Qed.

Lemma SFsub_finite_not_nan x sy my ey :
  not_nan x -> not_nan (SFsub prec emax x (S754_finite sy my ey)).
Proof.
  intros Hx. destruct x as [sx|sx| |sx mx ex]; cbn [SFsub]; try exact I; try contradiction.
  apply binary_normalize_not_nan.
Qed.

(** A square is +0, a positive number or plus infinity. *)
Lemma SFmul_square z : not_nan z -> signed false (SFmul prec emax z z).
Proof.
  intros Hz. destruct z as [s|s| |s m e]; cbn [SFmul]; try contradiction.
  - cbn. now destruct s.
  - cbn. now destruct s.
  - replace (xorb s s) with false by (now destruct s).
    apply binary_round_aux_signed. lia.
Qed.

Lemma SFadd_signed_false x y :
  signed false x -> signed false y -> signed false (SFadd prec emax x y).
Proof.
  intros Hx Hy.
  destruct x as [sx|sx| |sx mx ex], y as [sy|sy| |sy my ey];
    cbn [signed] in Hx, Hy; try contradiction; subst; cbn [SFadd]; try reflexivity.
  cbn [cond_Zopp]. apply binary_round_signed.
Qed.
End Rounding.

Section Binary64Loop.
Import SpecFloat FloatOps FloatAxioms.

Lemma in_unit_not_nan u : in_unit u -> not_nan (Prim2SF u).
Proof.
  intros [Hge _]. cbn [js_ge binary64_number] in Hge. unfold float_ge in Hge.
  rewrite leb_spec in Hge. destruct (Prim2SF u); try exact I.
  unfold SFleb, SFcompare in Hge. now destruct (Prim2SF (lit 0)).
Qed.

Lemma z_not_nan (u : PrimFloat.float) :
  not_nan (Prim2SF u) -> not_nan (Prim2SF (lit 2 * u - lit 1)%js).
Proof.
  intros Hu. cbn [js_sub js_mul binary64_number].
  rewrite sub_spec, mul_spec.
  replace (Prim2SF (lit 1)) with (S754_finite false 4503599627370496 (-52))
    by (vm_compute; reflexivity).
  replace (Prim2SF (lit 2)) with (S754_finite false 4503599627370496 (-51))
    by (vm_compute; reflexivity).
  apply SFsub_finite_not_nan, SFmul_finite_not_nan, Hu.
Qed.

Lemma radius_signed (z1 z2 : PrimFloat.float) :
  not_nan (Prim2SF z1) -> not_nan (Prim2SF z2) ->
  signed false (Prim2SF (z1 * z1 + z2 * z2)%js).
Proof.
  intros H1 H2. cbn [js_add js_mul binary64_number].
  rewrite add_spec, !mul_spec.
  apply SFadd_signed_false; apply SFmul_square; assumption.
Qed.

(** On a sum of squares, the two tests of the loop are false only
    strictly between 0 and 1. *)
Lemma loop_tests_false_binary64 (radius : PrimFloat.float) :
  signed false (Prim2SF radius) ->
  (radius >= lit 1)%js = false -> (radius === lit 0)%js = false ->
  (radius > lit 0)%js = true /\ (lit 1 > radius)%js = true.
Proof.
  cbn [js_ge js_gt js_strict_eq binary64_number]. unfold float_ge, float_gt.
  rewrite leb_spec, eqb_spec, !ltb_spec.
  replace (Prim2SF (lit 1)) with (S754_finite false 4503599627370496 (-52))
    by (vm_compute; reflexivity).
  replace (Prim2SF (lit 0)) with (S754_zero false) by (vm_compute; reflexivity).
  destruct (Prim2SF radius) as [s|s| |s m e]; cbn [signed]; intros Hs Hge Heq;
    try contradiction; subst s.
  - discriminate Heq.
  - discriminate Hge.
  - split; [reflexivity|]. revert Hge. unfold SFleb, SFltb, SFcompare.
    rewrite (Z.compare_antisym e (-52)).
    destruct (e ?= -52)%Z; cbn [CompOpp]; try discriminate; try reflexivity.
    replace (Pos.compare_cont Eq 4503599627370496 m)
      with (CompOpp (Pos.compare_cont Eq m 4503599627370496))
      by (apply (Pos.compare_cont_antisym m 4503599627370496 Eq)).
    destruct (Pos.compare_cont Eq m 4503599627370496); cbn [CompOpp]; now try discriminate.
Qed.

End Binary64Loop.

(** C2: whenever the rejection loop of [gaussRand] exits, its [radius] is
    [z1*z1 + z2*z2] and lies strictly between 0 and 1: over exact
    arithmetic, where the logarithm is then taken of a positive number, the
    division is by a non-zero number and the square root is taken of a
    positive number; and in binary64, on draws in [[0,1)]. *)
Theorem gaussRand_radius_in_unit_interval :
  (forall (rs : list R) z1 z2 radius rs',
     gaussRand_loop rs = Some ((z1, z2, radius), rs') ->
     radius = z1 * z1 + z2 * z2 /\ 0 < radius < 1 /\
     radius <> 0 /\ ln radius < 0 /\ 0 < -2 * ln radius / radius)%R /\
  (forall (rs : list PrimFloat.float) z1 z2 radius rs',
     Forall in_unit rs ->
     gaussRand_loop rs = Some ((z1, z2, radius), rs') ->
     radius = (z1 * z1 + z2 * z2)%js /\
     (radius > lit 0)%js = true /\ (lit 1 > radius)%js = true).
Proof.
  split.
  - intros rs z1 z2 radius rs' Hloop.
    apply gaussRand_loop_inv in Hloop
      as (rej & u1 & u2 & _ & _ & _ & Hr & Hge & Heq).
    assert (Hunit : (0 < radius < 1)%R) by (eapply loop_tests_false; eauto).
    assert (Hln : (ln radius < 0)%R)
      by (rewrite <- ln_1; apply ln_increasing; lra).
    repeat split; try lra; try exact Hr.
    apply Rdiv_lt_0_compat; lra.
  - intros rs z1 z2 radius rs' Hunit Hloop.
    apply gaussRand_loop_inv in Hloop
      as (rej & u1 & u2 & -> & -> & -> & Hr & Hge & Heq).
    apply Forall_app in Hunit as [_ Hunit].
    apply Forall_cons_iff in Hunit as [Hu1 Hunit].
    apply Forall_cons_iff in Hunit as [Hu2 _].
    split; [exact Hr|]. apply loop_tests_false_binary64; try assumption.
    rewrite Hr. apply radius_signed; apply z_not_nan, in_unit_not_nan; assumption.
Qed.

(** ** Which draws a component depends on *)

Section Frame.
Context {num : Type} `{JSNumber num} `{JSMath num}.
Local Open Scope js_scope.

(** The loop of [gaussRand] reads a prefix of the draws and behaves the
    same whatever follows it. *)
Lemma gaussRand_loop_frame rs x rs' :
  gaussRand_loop rs = Some (x, rs') ->
  exists used,
    rs = used ++ rs' /\ forall rest, gaussRand_loop (used ++ rest) = Some (x, rest).
Proof.
  revert rs. apply (draws_pair_ind (fun rs => gaussRand_loop rs = _ -> _)).
  - discriminate.
  - discriminate.
  - intros u1 u2 rs IH Hloop. cbn [gaussRand_loop] in Hloop. cbv zeta in Hloop.
    match type of Hloop with
    | (if ?test then _ else _) = _ => destruct test eqn:Htest
    end.
    + destruct (IH Hloop) as (used & -> & Hused).
      exists (u1 :: u2 :: used). split; [reflexivity|].
      intros rest. cbn [app gaussRand_loop]. cbv zeta. rewrite Htest. apply Hused.
    + inversion Hloop; subst. exists [u1; u2]. split; [reflexivity|].
      intros rest. cbn [app gaussRand_loop]. cbv zeta. now rewrite Htest.
Qed.

Lemma gaussRand_frame mu sigma rs v rs' :
  gaussRand (Some mu) (Some sigma) rs = Some (v, rs') ->
  exists used,
    rs = used ++ rs' /\
    forall rest, gaussRand (Some mu) (Some sigma) (used ++ rest) = Some (v, rest).
Proof.
  intros Hrun. apply gaussRand_inv in Hrun as (z1 & z2 & radius & Hloop & ->).
  apply gaussRand_loop_frame in Hloop as (used & -> & Hused).
  exists used. split; [reflexivity|].
  intros rest. apply gaussRand_inv. exists z1, z2, radius. split; [apply Hused | reflexivity].
Qed.

(** Two calls of the basic income model on draws that differ only in the
    draw of [nonWorkerMultiplier] return the same [directCosts],
    [administrativeCosts] and [productivity]. *)
Lemma basicIncome_other_components used u1 u2 rest admin a1 r1 a2 r2 :
  gaussRand (Some (lit 250)) (Some (lit 75)) (used ++ u1 :: rest)
    = Some (admin, u1 :: rest) ->
  basicIncomeCostBenefit (used ++ u1 :: rest) = Some (a1, r1) ->
  basicIncomeCostBenefit (used ++ u2 :: rest) = Some (a2, r2) ->
  get "directCosts" a1 = get "directCosts" a2 /\
  get "administrativeCosts" a1 = get "administrativeCosts" a2 /\
  get "productivity" a1 = get "productivity" a2.
Proof.
  intros Hadmin Hrun1 Hrun2.
  destruct (gaussRand_frame _ _ _ _ _ Hadmin) as (used' & Hsplit & Hused).
  apply app_inv_tail in Hsplit. subst used'.
  apply basicIncomeCostBenefit_inv in Hrun1
    as (ad1 & m1 & pm1 & c1 & s1 & s2 & s3 & Hg1 & Hm1 & Hp1 & _ & ->).
  apply basicIncomeCostBenefit_inv in Hrun2
    as (ad2 & m2 & pm2 & c2 & t1 & t2 & t3 & Hg2 & Hm2 & Hp2 & _ & ->).
  rewrite Hadmin in Hg1. inversion Hg1; subst ad1 s1.
  rewrite Hused in Hg2. inversion Hg2; subst ad2 t1.
  apply uniformRand_inv in Hm1 as (v1 & Hs2 & _). inversion Hs2; subst v1 s2.
  apply uniformRand_inv in Hm2 as (v2 & Ht2 & _). inversion Ht2; subst v2 t2.
  apply uniformRand_inv in Hp1 as (w1 & -> & ->).
  apply uniformRand_inv in Hp2 as (w2 & Hw & ->). inversion Hw; subst w2 t3.
  repeat split; reflexivity.
Qed.
End Frame.

(** ** Runs that return, over exact arithmetic *)

Section ExactRuns.
Local Open Scope R_scope.

Lemma central_accepted (u1 u2 : R) :
  central u1 -> central u2 ->
  let z1 := (lit 2 * u1 - lit 1)%js in
  let z2 := (lit 2 * u2 - lit 1)%js in
  0 < z1 * z1 + z2 * z2 < 1.
Proof. unfold central. exact_arith. cbv zeta. nra. Qed.

Lemma gaussRand_central (mu sigma u1 u2 : R) rs :
  central u1 -> central u2 ->
  exists v, gaussRand (Some mu) (Some sigma) (u1 :: u2 :: rs) = Some (v, rs).
Proof.
  intros H1 H2. eexists. apply gaussRand_inv. do 3 eexists.
  split; [|reflexivity].
  destruct (loop_tests_accept _ (central_accepted u1 u2 H1 H2)) as [Hge Heq].
  now apply gaussRand_loop_accept.
Qed.

Lemma binomRand_central (N p u1 u2 : R) rs :
  central u1 -> central u2 ->
  exists v, binomRand N p (u1 :: u2 :: rs) = Some (v, rs).
Proof.
  intros H1 H2.
  destruct (gaussRand_central (N * p) (sqrt (N * p * (lit 1 - p)%js)) u1 u2 rs H1 H2)
    as [g Hg].
  eexists. apply binomRand_inv. exists g. split; [exact Hg | reflexivity].
Qed.

Lemma basicIncomeCostBenefit_central (u1 u2 u3 u4 u5 u6 : R) rs :
  central u1 -> central u2 -> central u5 -> central u6 ->
  exists amounts,
    basicIncomeCostBenefit (u1 :: u2 :: u3 :: u4 :: u5 :: u6 :: rs) = Some (amounts, rs).
Proof.
  intros H1 H2 H5 H6.
  destruct (gaussRand_central (lit 250) (lit 75) u1 u2 (u3 :: u4 :: u5 :: u6 :: rs) H1 H2)
    as [admin Hadmin].
  destruct (binomRand_central
              (nonWorkers (u3 * (lit 0.15 - - lit 0.10) + - lit 0.10)%js) (lit 1e-7)
              u5 u6 rs H5 H6) as [count Hcount].
  eexists. apply basicIncomeCostBenefit_inv.
  exists admin. do 6 eexists.
  split; [exact Hadmin|].
  split; [apply uniformRand_inv; eexists; split; reflexivity|].
  split; [apply uniformRand_inv; eexists; split; reflexivity|].
  split; [exact Hcount | reflexivity].
Qed.

Lemma basicJobCostBenefit_central (u1 u2 u3 u4 u5 u6 : R) rs :
  central u2 -> central u3 -> central u4 -> central u5 ->
  exists amounts,
    basicJobCostBenefit (u1 :: u2 :: u3 :: u4 :: u5 :: u6 :: rs) = Some (amounts, rs).
Proof.
  intros H2 H3 H4 H5.
  destruct (gaussRand_central (lit 500) (lit 150) u2 u3 (u4 :: u5 :: u6 :: rs) H2 H3)
    as [a Ha].
  destruct (gaussRand_central (lit 5000) (lit 1500) u4 u5 (u6 :: rs) H4 H5)
    as [b Hb].
  eexists. apply basicJobCostBenefit_inv.
  do 2 eexists. exists b. do 4 eexists.
  split; [apply uniformRand_inv; eexists; split; reflexivity|].
  split; [exact Ha|].
  split; [exact Hb|].
  split; [apply uniformRand_inv; eexists; split; reflexivity|].
  reflexivity.
Qed.

(** With twelve central draws for each trial the loop of [run] returns. *)
Lemma run_loop_central n :
  forall i (g : globals) (rs : list R),
    Forall central rs -> (12 * n <= length rs)%nat ->
    exists g' rs',
      run_loop n i g rs = Some (g', rs') /\
      Forall central rs' /\ (length rs' + 12 * n = length rs)%nat.
Proof.
  induction n as [|n IH]; intros i g rs Hc Hlen.
  - exists g, rs. repeat split; [assumption | lia].
  - do 12 (destruct rs as [|? rs]; [simpl in Hlen; lia|]).
    repeat match goal with
           | Hall : Forall central (_ :: _) |- _ =>
               apply Forall_cons_iff in Hall; destruct Hall as [? Hall]
           end.
    destruct (basicIncomeCostBenefit_central r r0 r1 r2 r3 r4
                (r5 :: r6 :: r7 :: r8 :: r9 :: r10 :: rs)) as [bi Hbi]; try assumption.
    destruct (basicJobCostBenefit_central r5 r6 r7 r8 r9 r10 rs) as [bj Hbj];
      try assumption.
    edestruct (IH (S i)) as (g' & rs' & Hloop & Hc' & Hlen');
      [eassumption | simpl in Hlen; lia |].
    exists g', rs'. split; [|split; [exact Hc' | simpl; lia]].
    cbn [run_loop]. apply bind_Some. exists bi. eexists. split; [exact Hbi|].
    apply bind_Some. exists bj. eexists. split; [exact Hbj|]. exact Hloop.
Qed.

(** [run] returns on every supply of at least 12000 central draws. *)
Lemma run_returns (g : globals) (rs : list R) :
  Forall central rs -> (12 * 1000 <= length rs)%nat ->
  exists g' rs', run g rs = Some (g', rs').
Proof.
  intros Hc Hlen.
  destruct (run_loop_central 1000 0 g rs Hc Hlen) as (g1 & rs' & Hloop & _ & _).
  eexists. exists rs'. apply run_with_inv. exists g1. split; [exact Hloop | reflexivity].
Qed.

Lemma central_three_quarters : central (3 / 4).
Proof. unfold central. lra. Qed.

Lemma run_returns_on_three_quarters :
  exists g' rs',
    run initial_globals (repeat (3 / 4) (12 * 1000)) = Some (g', rs').
Proof.
  apply run_returns.
  - apply Forall_forall. intros u Hu. apply repeat_spec in Hu. subst u.
    apply central_three_quarters.
  - rewrite repeat_length. lia.
Qed.
End ExactRuns.

(** ** Sample runs, over exact arithmetic *)

Section ExactSamples.
Local Open Scope R_scope.

(** With a first draw of 1/2 the accepted [z1] is 0 and [gaussRand]
    returns [mu]. *)
Lemma gaussRand_zero_z1 (mu sigma : R) rs :
  gaussRand (Some mu) (Some sigma) (1 / 2 :: 3 / 4 :: rs) = Some (mu, rs).
Proof.
  apply gaussRand_inv. do 3 eexists. split.
  - apply gaussRand_loop_accept; apply loop_tests_accept; exact_arith; lra.
  - exact_arith. replace (2 * / 1 * (1 / 2) - 1 * / 1) with 0 by lra. ring.
Qed.

Lemma binomRand_zero_z1 (N p : R) rs :
  binomRand N p (1 / 2 :: 3 / 4 :: rs) = Some (Rmax (Rround (N * p)) 0, rs).
Proof.
  apply binomRand_inv. exists (N * p). split.
  - apply gaussRand_zero_z1.
  - now rewrite clamp_Rmax.
Qed.

Lemma Rround_eq (n : Z) (x : R) :
  IZR n - / 2 <= x < IZR n + / 2 -> Rround x = IZR n.
Proof. intros Hx. unfold Rround. rewrite (Zfloor_eq n); [reflexivity | lra]. Qed.

(** The basic income model on six draws, the first and the third pair
    accepted at once with [z1 = 0]. *)
Lemma basicIncome_sample (u3 u4 : R) :
  basicIncomeCostBenefit [1 / 2; 3 / 4; u3; u4; 1 / 2; 3 / 4] =
  Some ([("directCosts", numAdults * basicIncome / lit 2);
         ("administrativeCosts", numAdults * lit 250);
         ("productivity",
           - laborForce * (lit 40 * lit 52 * lit 25)
             * (u4 * (lit 0.2 - - lit 0.1) + - lit 0.1));
         ("jkRowling",
           - Rmax (Rround (nonWorkers (u3 * (lit 0.15 - - lit 0.10) + - lit 0.10)
                           * lit 1e-7)) 0 * lit 1e9)]%js,
        []).
Proof.
  apply basicIncomeCostBenefit_inv. do 7 eexists.
  split; [apply gaussRand_zero_z1|].
  split; [apply uniformRand_inv; eexists; split; reflexivity|].
  split; [apply uniformRand_inv; eexists; split; reflexivity|].
  split; [apply binomRand_zero_z1 | reflexivity].
Qed.

Lemma sample_count_low :
  Rmax (Rround (nonWorkers (0 * (lit 0.15 - - lit 0.10) + - lit 0.10)
                * lit 1e-7)%js) 0 = 5.
Proof.
  rewrite (Rround_eq 5).
  - apply Rmax_left. lra.
  - unfold nonWorkers, numAdults, laborForce, disabledAdults. exact_arith. lra.
Qed.

Lemma sample_count_high :
  Rmax (Rround (nonWorkers (4 / 5 * (lit 0.15 - - lit 0.10) + - lit 0.10)
                * lit 1e-7)%js) 0 = 6.
Proof.
  rewrite (Rround_eq 6).
  - apply Rmax_left. lra.
  - unfold nonWorkers, numAdults, laborForce, disabledAdults. exact_arith. lra.
Qed.

(** C8 on the code: on no number instance do two calls of the basic
    income model that differ only in the draw of [nonWorkerMultiplier]
    differ in [productivity]. *)
Lemma productivity_ignores_nonWorkers_draw :
  ~ (exists (num : Type) (HN : JSNumber num) (HM : JSMath num)
            (used : list num) u1 u2 rest admin a1 r1 a2 r2,
       gaussRand (Some (lit 250)) (Some (lit 75)) (used ++ u1 :: rest)
         = Some (admin, u1 :: rest) /\
       basicIncomeCostBenefit (used ++ u1 :: rest) = Some (a1, r1) /\
       basicIncomeCostBenefit (used ++ u2 :: rest) = Some (a2, r2) /\
       get "productivity" a1 <> get "productivity" a2).
Proof.
  intros (num & HN & HM & used & u1 & u2 & rest & admin & a1 & r1 & a2 & r2
          & Hadmin & H1 & H2 & Hne).
  apply Hne.
  apply (basicIncome_other_components used u1 u2 rest admin a1 r1 a2 r2 Hadmin H1 H2).
Qed.

(** C8, as the code has it: the output of the basic income model has the
    four component keys and none for [nonWorkers]; its [jkRowling] is the
    count drawn by [binomRand(nonWorkers, 1e-7)] times -1e9; two calls that
    differ only in the draw of [nonWorkerMultiplier] agree on [directCosts],
    [administrativeCosts] and [productivity] (on every number instance),
    and can differ in [jkRowling] (over exact arithmetic). *)
Theorem nonWorkers_feeds_jkRowling_only :
  (forall (num : Type) (HN : JSNumber num) (HM : JSMath num)
          (rs : list num) amounts rs',
     basicIncomeCostBenefit rs = Some (amounts, rs') ->
     Object_keys amounts = basicIncomeKeys /\ get "nonWorkers" amounts = None /\
     exists nonWorkerMultiplier count rs3,
       binomRand (nonWorkers nonWorkerMultiplier) (lit 1e-7) rs3 = Some (count, rs') /\
       get "jkRowling" amounts = Some (- count * lit 1e9)%js) /\
  (forall (num : Type) (HN : JSNumber num) (HM : JSMath num)
          (used : list num) u1 u2 rest admin a1 r1 a2 r2,
     gaussRand (Some (lit 250)) (Some (lit 75)) (used ++ u1 :: rest)
       = Some (admin, u1 :: rest) ->
     basicIncomeCostBenefit (used ++ u1 :: rest) = Some (a1, r1) ->
     basicIncomeCostBenefit (used ++ u2 :: rest) = Some (a2, r2) ->
     get "directCosts" a1 = get "directCosts" a2 /\
     get "administrativeCosts" a1 = get "administrativeCosts" a2 /\
     get "productivity" a1 = get "productivity" a2) /\
  (exists (used : list R) u1 u2 rest admin a1 r1 a2 r2,
     gaussRand (Some (lit 250)) (Some (lit 75)) (used ++ u1 :: rest)
       = Some (admin, u1 :: rest) /\
     basicIncomeCostBenefit (used ++ u1 :: rest) = Some (a1, r1) /\
     basicIncomeCostBenefit (used ++ u2 :: rest) = Some (a2, r2) /\
     get "jkRowling" a1 <> get "jkRowling" a2).
Proof.
  split; [|split].
  - intros num HN HM rs amounts rs' Hrun. apply basicIncomeCostBenefit_inv in Hrun.
    destruct Hrun as (a & m & pm & c & rs1 & rs2 & rs3 & _ & _ & _ & Hc & ->).
    split; [reflexivity|]. split; [reflexivity|].
    exists m, c, rs3. split; [exact Hc | reflexivity].
  - intros num HN HM. apply basicIncome_other_components.
  - exists [1 / 2; 3 / 4], 0, (4 / 5), [1 / 2; 1 / 2; 3 / 4], (lit 250).
    do 4 eexists.
    split; [apply gaussRand_zero_z1|].
    split; [apply (basicIncome_sample 0 (1 / 2))|].
    split; [apply (basicIncome_sample (4 / 5) (1 / 2))|].
    cbn [get String.eqb Ascii.eqb Bool.eqb].
    match goal with
    | |- Some (js_mul (js_neg ?low) _) <> Some (js_mul (js_neg ?high) _) =>
        replace low with 5 by (symmetry; exact sample_count_low);
        replace high with 6 by (symmetry; exact sample_count_high)
    end.
    intros Heq. inversion Heq as [Hval]. exact_arith. lra.
Qed.
End ExactSamples.

(** ** Calls of [run] with arguments *)

Section RunCalls.
Local Open Scope R_scope.


End RunCalls.

(** ** The theorems at concrete inputs *)

Section Witnesses.
Local Open Scope R_scope.


(** C2 on the draws 3/4, 3/4, over the reals and in binary64:
    [z1 = z2 = 1/2] and [radius = 1/2]. *)
Lemma gaussRand_radius_in_unit_interval_witness :
  (let z := (lit 2 * (3 / 4) - lit 1)%js in
   gaussRand_loop [3 / 4; 3 / 4] = Some ((z, z, z * z + z * z), []) /\
   (z * z + z * z = z * z + z * z /\ 0 < z * z + z * z < 1 /\
    z * z + z * z <> 0 /\ ln (z * z + z * z) < 0 /\
    0 < -2 * ln (z * z + z * z) / (z * z + z * z))) /\
  (let u : PrimFloat.float := lit 0.75 in
   let z : PrimFloat.float := lit 0.5 in
   Forall in_unit [u; u] /\
   gaussRand_loop [u; u] = Some ((z, z, lit 0.5), []) /\
   (lit 0.5 = (z * z + z * z)%js /\
    (lit 0.5 > (lit 0 : PrimFloat.float))%js = true /\
    (lit 1 > (lit 0.5 : PrimFloat.float))%js = true)).
Proof.
  destruct gaussRand_radius_in_unit_interval as [Hexact Hbinary64].
  split.
  - intros z.
    assert (Hunit : 0 < z * z + z * z < 1) by (unfold z; exact_arith; lra).
    destruct (loop_tests_accept _ Hunit) as [Hge Heq].
    assert (Hloop : gaussRand_loop [3 / 4; 3 / 4] = Some ((z, z, z * z + z * z), []))
      by exact (gaussRand_loop_accept (3 / 4) (3 / 4) [] Hge Heq).
    split; [exact Hloop|].
    exact (Hexact _ _ _ _ _ Hloop).
  - intros u z.
    assert (Hu : Forall in_unit [u; u])
      by (repeat constructor; vm_compute; reflexivity).
    assert (Hloop : gaussRand_loop [u; u] = Some ((z, z, lit 0.5), []))
      by (vm_compute; reflexivity).
    split; [exact Hu|]. split; [exact Hloop|].
    exact (Hbinary64 _ _ _ _ _ Hu Hloop).
Defined.

(** C3 on three array slots, one of them a hole, and their reversal. *)
Lemma average_order_independent_exact_witness :
  let a : object R := [("directCosts", 1); ("productivity", 2)] in
  let b : object R := [("productivity", 3); ("directCosts", 5)] in
  Permutation [Some a; None; Some b] [Some b; None; Some a] /\
  forall key,
    get key (array_reduce (amountsAvgReducer 2) [Some a; None; Some b] empty_object) =
    get key (array_reduce (amountsAvgReducer 2) [Some b; None; Some a] empty_object).
Proof.
  intros a b.
  assert (Hperm : Permutation [Some a; None; Some b] [Some b; None; Some a]).
  { eapply perm_trans; [apply perm_swap|].
    eapply perm_trans; [apply perm_skip, perm_swap|].
    apply perm_swap. }
  split; [exact Hperm|].
  destruct average_order_independent_exact as [_ Hexact].
  exact (Hexact 2 _ _ Hperm).
Defined.

(** C4 at [min = 2], [max = 3] and the draw 1/2. *)
Lemma uniformRand_exact_range_witness :
  uniformRand 2 3 [1 / 2] = Some (2 + 1 / 2 * (3 - 2), []) /\
  2 <= 2 + 1 / 2 * (3 - 2) < 3.
Proof.
  destruct uniformRand_exact_range as [_ Hexact].
  apply (Hexact 2 3 (1 / 2) []); lra.
Defined.

(** C5 at [N = 10], [p = 1/2] on the draws 1/2, 3/4. *)
Lemma binomRand_rounds_and_clamps_witness :
  (exists g,
     gaussRand (Some (10 * (1 / 2))) (Some (sqrt (10 * (1 / 2) * (1 - 1 / 2))))
               [1 / 2; 3 / 4] = Some (g, []) /\
     Rmax (Rround (10 * (1 / 2))) 0 = Rmax (Rround g) 0) /\
  0 <= Rmax (Rround (10 * (1 / 2))) 0 /\
  (10 = 0 \/ 1 / 2 = 0 -> Rmax (Rround (10 * (1 / 2))) 0 = 0).
Proof.
  apply (binomRand_rounds_and_clamps 10 (1 / 2) [1 / 2; 3 / 4] _ []);
    [lra | lra | apply binomRand_zero_z1].
Defined.

(** C6 on six draws. *)
Lemma basicIncome_directCosts_fixed_witness :
  exists amounts,
    basicIncomeCostBenefit [1 / 2; 3 / 4; 0; 1 / 2; 1 / 2; 3 / 4] = Some (amounts, []) /\
    get "directCosts" amounts = Some (numAdults * basicIncome / lit 2)%js.
Proof.
  eexists. split; [apply (basicIncome_sample 0 (1 / 2))|].
  exact (basicIncome_directCosts_fixed _ _ _ (basicIncome_sample 0 (1 / 2))).
Defined.

(** C7 on a run of 1000 trials with every draw equal to 3/4. *)
Lemma run_1000_trials_and_keys_witness :
  exists g' rs',
    run initial_globals (repeat (3 / 4) (12 * 1000)) = Some (g', rs') /\
    (exists bi bj,
       length bi = 1000%nat /\ length bj = 1000%nat /\
       biAmounts g' = map Some bi /\ biTotals g' = map Some (map trial_total bi) /\
       bjAmounts g' = map Some bj /\ bjTotals g' = map Some (map trial_total bj)) /\
    (exists biAvg bjAvg,
       biAmountsAvg g' = Some biAvg /\ Object_keys biAvg = basicIncomeKeys /\
       bjAmountsAvg g' = Some bjAvg /\ Object_keys bjAvg = basicJobKeys).
Proof.
  destruct run_returns_on_three_quarters as (g' & rs' & Hrun).
  exists g', rs'. split; [exact Hrun|].
  exact (run_1000_trials_and_keys initial_globals _ g' rs' reachable_initial Hrun).
Defined.

(** C8 on the six draws of [basicIncome_sample]. *)
Lemma nonWorkers_feeds_jkRowling_only_witness :
  exists amounts,
    basicIncomeCostBenefit [1 / 2; 3 / 4; 0; 1 / 2; 1 / 2; 3 / 4] = Some (amounts, []) /\
    Object_keys amounts = basicIncomeKeys /\ get "nonWorkers" amounts = None.
Proof.
  eexists. split; [apply (basicIncome_sample 0 (1 / 2))|].
  destruct nonWorkers_feeds_jkRowling_only as [Hkeys _].
  destruct (Hkeys R _ _ _ _ _ (basicIncome_sample 0 (1 / 2))) as (H1 & H2 & _).
  split; [exact H1 | exact H2].
Defined.


(** C10 at [mu = 5] and at [N = 5], [p = 1], on the draws 1/2, 3/4. *)
Lemma gaussRand_zero_sigma_deterministic_witness :
  gaussRand (Some 5) (Some 0) [1 / 2; 3 / 4] = Some (5, []) /\
  binomRand 5 1 [1 / 2; 3 / 4] = Some (Rmax (Rround (5 * 1)) 0, []) /\
  Rmax (Rround (5 * 1)) 0 = Rmax (Rround (5 * 1)) 0.
Proof.
  destruct (gaussRand_zero_sigma_deterministic 5 5 1) as [_ Hbinom].
  destruct Hbinom as [Hvalue _]; [lra|].
  split; [apply gaussRand_zero_z1|].
  split; [apply binomRand_zero_z1|].
  exact (Hvalue _ _ _ (binomRand_zero_z1 5 1 [])).
Defined.
End Witnesses.

(** * Further properties *)

(** ** The generators *)

Section GeneratorPrefix.
Context {num : Type} `{JSNumber num} `{JSMath num}.
Local Open Scope js_scope.

(** The loop reads a positive, even number of draws and nothing beyond
    them. *)
Lemma gaussRand_loop_prefix rs x rs' :
  gaussRand_loop rs = Some (x, rs') ->
  exists used k,
    rs = used ++ rs' /\ length used = (2 * S k)%nat /\
    forall rest, gaussRand_loop (used ++ rest) = Some (x, rest).
Proof.
  revert rs. apply (draws_pair_ind (fun rs => gaussRand_loop rs = _ -> _)).
  - discriminate.
  - discriminate.
  - intros u1 u2 rs IH Hloop. cbn [gaussRand_loop] in Hloop. cbv zeta in Hloop.
    match type of Hloop with
    | (if ?test then _ else _) = _ => destruct test eqn:Htest
    end.
    + destruct (IH Hloop) as (used & k & -> & Hlen & Hused).
      exists (u1 :: u2 :: used), (S k). split; [reflexivity|].
      split; [simpl; lia|].
      intros rest. cbn [app gaussRand_loop]. cbv zeta. rewrite Htest. apply Hused.
    + inversion Hloop; subst. exists [u1; u2], 0%nat. split; [reflexivity|].
      split; [reflexivity|].
      intros rest. cbn [app gaussRand_loop]. cbv zeta. now rewrite Htest.
Qed.
End GeneratorPrefix.

(** X1: a call of [gaussRand], with or without its arguments, that returns
    has read a positive, even number of draws, and returns the same value
    whatever draws follow the ones it read. *)
Theorem gaussRand_reads_even_prefix
    {num : Type} `{JSNumber num} `{JSMath num}
    (mu sigma : option num) (rs : list num) v rs' :
  gaussRand mu sigma rs = Some (v, rs') ->
  exists used k,
    rs = used ++ rs' /\ length used = (2 * S k)%nat /\
    forall rest, gaussRand mu sigma (used ++ rest) = Some (v, rest).
Proof.
  unfold gaussRand. intros Hrun.
  apply bind_Some in Hrun as ([[z1 z2] radius] & rs1 & Hloop & Hret).
  apply ret_Some in Hret as [Hv <-].
  apply gaussRand_loop_prefix in Hloop as (used & k & -> & Hlen & Hused).
  exists used, k. split; [reflexivity|]. split; [exact Hlen|].
  intros rest. apply bind_Some. exists (z1, z2, radius), rest.
  split; [apply Hused|]. apply ret_Some. split; [exact Hv | reflexivity].
Qed.

Section ExactGeneratorsMore.
Local Open Scope R_scope.

(** X2: over exact arithmetic [gaussRand(mu, sigma)] is
    [mu + sigma * gaussRand()] on the same draws: the call without
    arguments takes [mu = 0] and [sigma = 1], and each returns exactly when
    the other does. *)
Theorem gaussRand_location_scale (mu sigma : R) (rs : list R) v rs' :
  gaussRand (Some mu) (Some sigma) rs = Some (v, rs') <->
  exists g, gaussRand None None rs = Some (g, rs') /\ v = mu + sigma * g.
Proof.
  unfold gaussRand. split.
  - intros Hrun. apply bind_Some in Hrun as ([[z1 z2] radius] & rs1 & Hloop & Hret).
    apply ret_Some in Hret as [<- <-].
    eexists. split.
    + apply bind_Some. exists (z1, z2, radius), rs1. split; [exact Hloop | reflexivity].
    + exact_arith. field.
  - intros (g & Hrun & ->).
    apply bind_Some in Hrun as ([[z1 z2] radius] & rs1 & Hloop & Hret).
    apply ret_Some in Hret as [<- <-].
    apply bind_Some. exists (z1, z2, radius), rs1. split; [exact Hloop|].
    apply ret_Some. split; [|reflexivity]. exact_arith. field.
Qed.

Lemma gaussRand_loop_mirror (rs : list R) z1 z2 radius rs' :
  gaussRand_loop rs = Some ((z1, z2, radius), rs') ->
  gaussRand_loop (map (fun u => 1 - u) rs)
  = Some ((- z1, - z2, radius), map (fun u => 1 - u) rs').
Proof.
  revert rs. apply (draws_pair_ind (fun rs => gaussRand_loop rs = _ -> _)).
  - discriminate.
  - discriminate.
  - intros u1 u2 rs IH Hloop. cbn [map gaussRand_loop] in *. cbv zeta in *.
    exact_arith.
    assert (Hz : forall u, 2 * / 1 * (1 - u) - 1 * / 1 = - (2 * / 1 * u - 1 * / 1))
      by (intros u; field).
    rewrite !Hz, !Rmult_opp_opp.
    match type of Hloop with
    | (if ?test then _ else _) = _ => destruct test
    end.
    + apply IH, Hloop.
    + inversion Hloop; subst. reflexivity.
Qed.

(** X3: over exact arithmetic the generator is symmetric about [mu]:
    replacing every draw [u] by [1 - u] turns the result [v] into
    [2*mu - v]. *)
Theorem gaussRand_mirror (mu sigma : R) (rs : list R) v rs' :
  gaussRand (Some mu) (Some sigma) rs = Some (v, rs') ->
  gaussRand (Some mu) (Some sigma) (map (fun u => 1 - u) rs)
  = Some (2 * mu - v, map (fun u => 1 - u) rs').
Proof.
  intros Hrun. apply gaussRand_inv in Hrun as (z1 & z2 & radius & Hloop & ->).
  apply gaussRand_loop_mirror in Hloop.
  apply gaussRand_inv. exists (- z1), (- z2), radius. split; [exact Hloop|].
  exact_arith. ring.
Qed.

Lemma clamped_round_integer (g : R) :
  exists k : Z, (0 <= k)%Z /\ Rmax (Rround g) 0 = IZR k.
Proof.
  unfold Rround. set (n := Zfloor (g + / 2)).
  exists (Z.max n 0). split; [lia|].
  destruct (Z.le_ge_cases n 0) as [Hn|Hn].
  - rewrite Z.max_r by exact Hn. apply Rmax_right. now apply IZR_le.
  - rewrite Z.max_l by exact Hn. apply Rmax_left. now apply IZR_le.
Qed.

(** X4: over exact arithmetic the count that [binomRand] returns is a
    non-negative integer. *)
Theorem binomRand_integer (N p : R) (rs : list R) v rs' :
  binomRand N p rs = Some (v, rs') ->
  exists k : Z, (0 <= k)%Z /\ v = IZR k.
Proof.
  intros Hrun. apply binomRand_inv in Hrun as (g & _ & ->).
  rewrite clamp_Rmax. exact_arith.
  destruct (clamped_round_integer g) as (k & Hk & Heq).
  exists k. split; [exact Hk | exact Heq].
Qed.

(** X5: [uniformRand] does not check its arguments: over exact arithmetic,
    for a draw in [[0,1)] and [max <= min] the result lies in [[max, min]],
    above [max] when [max < min] and equal to [min] when [max = min]. *)
Theorem uniformRand_reversed_range (min max u : R) (rs : list R) v rs' :
  unit_draw u -> max <= min ->
  uniformRand min max (u :: rs) = Some (v, rs') ->
  rs' = rs /\ max <= v <= min /\ (max < min -> max < v) /\ (max = min -> v = min).
Proof.
  unfold unit_draw. intros Hu Hle Hrun.
  apply uniformRand_inv in Hrun as (u' & Hrs & ->). inversion Hrs; subst u' rs'.
  exact_arith. split; [reflexivity|]. repeat split; intros; subst; nra.
Qed.
End ExactGeneratorsMore.

(** ** The models *)

Section ExactModels.
Local Open Scope R_scope.

Lemma gaussRand_leaves_suffix (P : R -> Prop) (mu sigma : R) (rs : list R) v rs' :
  gaussRand (Some mu) (Some sigma) rs = Some (v, rs') ->
  Forall P rs -> Forall P rs'.
Proof.
  intros Hrun Hall.
  apply gaussRand_frame in Hrun as (used & -> & _).
  now apply Forall_app in Hall.
Qed.

(** X6: over exact arithmetic and draws in [[0,1)], the basic job model
    returns [directCosts] in [[6.786e11, 8.671e11)], and a [productivity]
    that never exceeds the direct costs in size:
    [-directCosts < productivity <= directCosts]. *)
Theorem basicJob_costs_bounds (rs : list R) amounts rs' :
  Forall unit_draw rs ->
  basicJobCostBenefit rs = Some (amounts, rs') ->
  exists directCosts productivity,
    get "directCosts" amounts = Some directCosts /\
    get "productivity" amounts = Some productivity /\
    678600000000 <= directCosts < 867100000000 /\
    - directCosts < productivity <= directCosts.
Proof.
  intros Hunit Hrun. apply basicJobCostBenefit_inv in Hrun.
  destruct Hrun as (m & a & b & h & rs1 & rs2 & rs3 & Hm & Ha & Hb & Hh & Hamounts).
  cbv zeta in Hamounts. subst amounts.
  apply uniformRand_inv in Hm as (u & -> & ->).
  apply Forall_cons_iff in Hunit as [Hu Hunit].
  apply (gaussRand_leaves_suffix _ _ _ _ _ _ Ha) in Hunit.
  apply (gaussRand_leaves_suffix _ _ _ _ _ _ Hb) in Hunit.
  apply uniformRand_inv in Hh as (u' & -> & ->).
  apply Forall_cons_iff in Hunit as [Hu' _].
  unfold unit_draw in Hu, Hu'.
  do 2 eexists. split; [reflexivity|]. split; [reflexivity|].
  unfold numAdults, disabledAdults, laborForce, basicIncome. exact_arith.
  split; [lra|].
  assert (Hworkers : 0 < (227000000 * / 1 - 21000000 * / 1 - 154000000 * / 1)
                         * (1 * / 1 + (u * (15 * / 100 - - (1 * / 10)) + - (1 * / 10))))
    by lra.
  revert Hworkers. generalize ((227000000 * / 1 - 21000000 * / 1 - 154000000 * / 1)
                         * (1 * / 1 + (u * (15 * / 100 - - (1 * / 10)) + - (1 * / 10)))).
  intros workers Hworkers. nra.
Qed.

(** X7: over exact arithmetic and draws in [[0,1)], the basic income model
    returns a [productivity] in [(-1.6016e12, 8.008e11]] and a [jkRowling]
    that is minus a whole number of billions. *)
Theorem basicIncome_components_bounds (rs : list R) amounts rs' :
  Forall unit_draw rs ->
  basicIncomeCostBenefit rs = Some (amounts, rs') ->
  exists productivity (k : Z),
    get "productivity" amounts = Some productivity /\
    -1601600000000 < productivity <= 800800000000 /\
    (0 <= k)%Z /\
    get "jkRowling" amounts = Some (- IZR k * 1000000000).
Proof.
  intros Hunit Hrun. apply basicIncomeCostBenefit_inv in Hrun.
  destruct Hrun as (a & m & pm & c & rs1 & rs2 & rs3 & Ha & Hm & Hpm & Hc & ->).
  apply (gaussRand_leaves_suffix _ _ _ _ _ _ Ha) in Hunit.
  apply uniformRand_inv in Hm as (u & -> & ->).
  apply Forall_cons_iff in Hunit as [_ Hunit].
  apply uniformRand_inv in Hpm as (u' & -> & ->).
  apply Forall_cons_iff in Hunit as [Hu' _]. unfold unit_draw in Hu'.
  apply binomRand_inv in Hc as (g & _ & ->). rewrite clamp_Rmax.
  destruct (clamped_round_integer g) as (k & Hk & Heq).
  eexists. exists k. split; [reflexivity|].
  split; [unfold laborForce; exact_arith; lra|].
  split; [exact Hk|].
  cbn [get String.eqb Ascii.eqb Bool.eqb]. f_equal.
  exact_arith. rewrite Heq. lra.
Qed.

Lemma keyed_sum_fresh key v (o : object R) (ks : list string) :
  ~ In key ks -> keyed_sum ((key, v) :: o) ks = keyed_sum o ks.
Proof.
  unfold keyed_sum.
  induction ks as [|k ks IH]; intros Hfresh; cbn [fold_right].
  - reflexivity.
  - assert (Hget : get k ((key, v) :: o) = get k o).
    { cbn [get]. destruct (String.eqb_spec k key) as [->|Hne]; [|reflexivity].
      exfalso. apply Hfresh. now left. }
    rewrite Hget, IH by (intros Hin; apply Hfresh; now right). reflexivity.
Qed.

Lemma keyed_sum_own (o : object R) :
  NoDup (Object_keys o) -> keyed_sum o (Object_keys o) = sum_values o.
Proof.
  induction o as [|[k v] o IH]; intros Hnodup.
  - unfold sum_values, keyed_sum. cbn [Object_keys map fold_right]. exact_arith. lra.
  - cbn [Object_keys map fst] in Hnodup.
    apply NoDup_cons_iff in Hnodup as [Hfresh Hnodup].
    specialize (IH Hnodup).
    pose proof (keyed_sum_fresh k v o (Object_keys o) Hfresh) as Hskip.
    change (Object_keys ((k, v) :: o)) with (k :: Object_keys o).
    unfold sum_values, keyed_sum in *.
    cbn [fold_right snd].
    assert (Hget : get k ((k, v) :: o) = Some v)
      by (cbn [get]; now rewrite String.eqb_refl).
    rewrite Hget, Hskip, IH. exact_arith. reflexivity.
Qed.

(** X8: over exact arithmetic the total that [run] records for a trial is
    the sum of all the values of its mapping, divided by 1e12. *)
Theorem trial_total_is_scaled_sum (amounts : object R) :
  NoDup (Object_keys amounts) ->
  trial_total amounts = sum_values amounts / 1000000000000.
Proof.
  intros Hnodup. rewrite trial_total_sum. now rewrite keyed_sum_own.
Qed.
End ExactModels.

Section ReadsFacts.
Context {num : Type} `{JSNumber num} `{JSMath num}.
Local Open Scope js_scope.

Lemma reads_bind {A B : Type} (c : Rand num A) (k : A -> Rand num B)
    rs a rs1 used1 b rs' used2 :
  reads c rs a rs1 used1 -> reads (k a) rs1 b rs' used2 ->
  reads (bind c k) rs b rs' (used1 ++ used2).
Proof.
  intros [-> Hc] [-> Hk]. split; [now rewrite app_assoc|].
  intros rest. apply bind_Some. exists a, (used2 ++ rest).
  split; [rewrite <- app_assoc; apply Hc | apply Hk].
Qed.

Lemma reads_ret {A : Type} (a : A) (rs : list num) : reads (ret a) rs a rs [].
Proof. split; reflexivity. Qed.

Lemma reads_uniformRand min max rs v rs' :
  uniformRand min max rs = Some (v, rs') ->
  exists u, reads (uniformRand min max) rs v rs' [u].
Proof.
  intros Hrun. apply uniformRand_inv in Hrun as (u & -> & ->).
  exists u. split; [reflexivity|]. intros rest. reflexivity.
Qed.

Lemma reads_gaussRand mu sigma rs v rs' :
  gaussRand mu sigma rs = Some (v, rs') ->
  exists used k,
    length used = (2 * S k)%nat /\ reads (gaussRand mu sigma) rs v rs' used.
Proof.
  unfold gaussRand. intros Hrun.
  apply bind_Some in Hrun as ([[z1 z2] radius] & rs1 & Hloop & Hret).
  apply ret_Some in Hret as [Hv <-].
  apply gaussRand_loop_prefix in Hloop as (used & k & -> & Hlen & Hused).
  exists used, k. split; [exact Hlen|]. split; [reflexivity|].
  intros rest. apply bind_Some. exists (z1, z2, radius), rest.
  split; [apply Hused|]. apply ret_Some. split; [exact Hv | reflexivity].
Qed.

Lemma reads_binomRand N p rs v rs' :
  binomRand N p rs = Some (v, rs') ->
  exists used k,
    length used = (2 * S k)%nat /\ reads (binomRand N p) rs v rs' used.
Proof.
  unfold binomRand. intros Hrun.
  apply bind_Some in Hrun as (g & rs1 & Hg & Hret).
  apply ret_Some in Hret as [Hv <-].
  apply reads_gaussRand in Hg as (used & k & Hlen & Hreads).
  exists used, k. split; [exact Hlen|].
  rewrite <- (app_nil_r used). eapply reads_bind; [exact Hreads|].
  rewrite <- Hv. apply reads_ret.
Qed.

Lemma reads_basicIncomeCostBenefit rs amounts rs' :
  basicIncomeCostBenefit rs = Some (amounts, rs') ->
  exists used k,
    length used = (2 * (3 + k))%nat /\ reads basicIncomeCostBenefit rs amounts rs' used.
Proof.
  unfold basicIncomeCostBenefit. cbv zeta. intros Hrun. rand_inv Hrun.
  apply reads_gaussRand in Hstep as (g1 & k1 & L1 & R1).
  apply reads_uniformRand in Hstep0 as (u1 & R2).
  apply reads_uniformRand in Hstep1 as (u2 & R3).
  apply reads_binomRand in Hstep2 as (g2 & k2 & L2 & R4).
  exists (g1 ++ [u1] ++ [u2] ++ g2 ++ []), (k1 + k2)%nat.
  split; [rewrite !length_app, L1, L2; simpl; lia|].
  eapply reads_bind; [exact R1|].
  eapply reads_bind; [exact R2|].
  eapply reads_bind; [exact R3|].
  eapply reads_bind; [exact R4|].
  apply reads_ret.
Qed.

Lemma reads_basicJobCostBenefit rs amounts rs' :
  basicJobCostBenefit rs = Some (amounts, rs') ->
  exists used k,
    length used = (2 * (3 + k))%nat /\ reads basicJobCostBenefit rs amounts rs' used.
Proof.
  unfold basicJobCostBenefit. cbv zeta. intros Hrun. rand_inv Hrun.
  apply reads_uniformRand in Hstep as (u1 & R1).
  apply reads_gaussRand in Hstep0 as (g1 & k1 & L1 & R2).
  apply reads_gaussRand in Hstep1 as (g2 & k2 & L2 & R3).
  apply reads_uniformRand in Hstep2 as (u2 & R4).
  exists ([u1] ++ g1 ++ g2 ++ [u2] ++ []), (k1 + k2)%nat.
  split; [rewrite !length_app, L1, L2; simpl; lia|].
  eapply reads_bind; [exact R1|].
  eapply reads_bind; [exact R2|].
  eapply reads_bind; [exact R3|].
  eapply reads_bind; [exact R4|].
  apply reads_ret.
Qed.
End ReadsFacts.

(** X9: each call of a model that returns has read an even number of
    draws, at least six, and returns the same mapping whatever draws
    follow the ones it read. *)
Theorem models_read_even_prefix {num : Type} `{JSNumber num} `{JSMath num} :
  (forall (rs : list num) amounts rs',
     basicIncomeCostBenefit rs = Some (amounts, rs') ->
     exists used k,
       rs = used ++ rs' /\ length used = (2 * (3 + k))%nat /\
       forall rest, basicIncomeCostBenefit (used ++ rest) = Some (amounts, rest)) /\
  (forall (rs : list num) amounts rs',
     basicJobCostBenefit rs = Some (amounts, rs') ->
     exists used k,
       rs = used ++ rs' /\ length used = (2 * (3 + k))%nat /\
       forall rest, basicJobCostBenefit (used ++ rest) = Some (amounts, rest)).
Proof.
  split; intros rs amounts rs' Hrun.
  - destruct (reads_basicIncomeCostBenefit _ _ _ Hrun)
      as (used & k & Hlen & Hsplit & Hframe).
    exists used, k. split; [exact Hsplit|]. split; [exact Hlen | exact Hframe].
  - destruct (reads_basicJobCostBenefit _ _ _ Hrun)
      as (used & k & Hlen & Hsplit & Hframe).
    exists used, k. split; [exact Hsplit|]. split; [exact Hlen | exact Hframe].
Qed.

(** ** The aggregation *)

Section ExactAverage.
Local Open Scope R_scope.

Lemma share_absent N key (amounts : object R) (ks : list string) :
  ~ In key ks -> share N key amounts ks = None.
Proof.
  unfold share. induction ks as [|k ks IH]; intros Hfresh; cbn [fold_right].
  - reflexivity.
  - destruct (String.eqb_spec key k) as [->|Hne].
    + exfalso. apply Hfresh. now left.
    + apply IH. intros Hin. apply Hfresh. now right.
Qed.

Lemma share_own N key (amounts : object R) :
  NoDup (Object_keys amounts) ->
  share N key amounts (Object_keys amounts) =
  match get key amounts with Some v => Some (v / N) | None => None end.
Proof.
  intros Hnodup.
  assert (Hgen : forall ks, NoDup ks ->
             share N key amounts ks =
             if existsb (String.eqb key) ks
             then match get key amounts with Some v => Some (v / N) | None => None end
             else None).
  { unfold share. induction ks as [|k ks IH]; intros Hks; cbn [fold_right existsb].
    - reflexivity.
    - apply NoDup_cons_iff in Hks as [Hfresh Hks].
      destruct (String.eqb_spec key k) as [->|Hne]; cbn [orb].
      + pose proof (share_absent N k amounts ks Hfresh) as Habs.
        unfold share in Habs. rewrite Habs.
        destruct (get k amounts); reflexivity.
      + apply IH, Hks. }
  rewrite (Hgen _ Hnodup), <- hasOwnProperty_keys. unfold hasOwnProperty.
  destruct (get key amounts); reflexivity.
Qed.

Lemma component_sum_absent key (trials : list (object R)) :
  existsb (hasOwnProperty key) trials = false -> component_sum key trials = 0.
Proof.
  unfold component_sum, hasOwnProperty.
  induction trials as [|a trials IH]; cbn [existsb fold_right]; [reflexivity|].
  destruct (get key a); cbn [orb]; [discriminate | exact IH].
Qed.

Lemma shares_component N key (trials : list (object R)) :
  Forall (fun a => NoDup (Object_keys a)) trials ->
  shares N key trials =
  if existsb (hasOwnProperty key) trials
  then Some (component_sum key trials / N) else None.
Proof.
  induction 1 as [|a trials Ha _ IH].
  - reflexivity.
  - unfold shares, component_sum in *. cbn [fold_right existsb].
    rewrite IH, (share_own N key a Ha).
    pose proof (component_sum_absent key trials) as Habsent.
    unfold component_sum, hasOwnProperty in *.
    destruct (get key a) as [v|]; cbn [orb opt_add].
    + destruct (existsb _ trials); cbn [opt_add]; f_equal.
      * unfold Rdiv. ring.
      * rewrite Habsent by reflexivity. unfold Rdiv. ring.
    + reflexivity.
Qed.

(** X10: over exact arithmetic, the average maps a key that some trial has
    to the sum of its values in the trials that have it, divided by [N]: a
    trial without the key adds nothing, and a key that no trial has is
    absent. *)
Theorem average_component (N : R) (arr : array (object R)) key :
  Forall (fun a => NoDup (Object_keys a)) (elements arr) ->
  get key (array_reduce (amountsAvgReducer N) arr empty_object) =
  if existsb (hasOwnProperty key) (elements arr)
  then Some (component_sum key (elements arr) / N) else None.
Proof.
  intros Hwf. rewrite array_reduce_elements, average_get.
  cbn [get empty_object opt_add]. now apply shares_component.
Qed.
End ExactAverage.

Lemma In_elements {A : Type} (a : A) (arr : array A) :
  In a (elements arr) <-> In (Some a) arr.
Proof.
  unfold elements. rewrite in_flat_map. split.
  - intros ([b|] & Hin & Hb); simpl in Hb; [|contradiction].
    destruct Hb as [->|[]]. exact Hin.
  - intros Hin. exists (Some a). split; [exact Hin | now left].
Qed.

(** X11: on every number instance the keys of the average are exactly the
    keys that occur in the trials; the holes of the array, and the order of
    the trials, do not matter, and the average of no trial is empty. *)
Theorem average_keys_union
    {num : Type} `{JSNumber num} (N : num) (arr : array (object num)) key :
  In key (Object_keys (array_reduce (amountsAvgReducer N) arr empty_object)) <->
  exists amounts, In (Some amounts) arr /\ In key (Object_keys amounts).
Proof.
  rewrite array_reduce_elements, average_keys_In. cbn [Object_keys empty_object map].
  split.
  - intros [[]|(a & Ha & Hk)]. exists a. split; [now apply In_elements | exact Hk].
  - intros (a & Ha & Hk). right. exists a. split; [now apply In_elements | exact Hk].
Qed.

(** ** The run *)

Section Overwriting.
Context {A : Type}.

Lemma array_set_split (i : nat) (v : A) (arr : array A) :
  i <= length arr ->
  array_set i v arr = firstn i arr ++ Some v :: skipn (S i) arr.
Proof.
  revert arr. induction i as [|i IH]; intros [|x t] Hi; simpl in *; try lia.
  - reflexivity.
  - reflexivity.
  - rewrite IH by lia. reflexivity.
Qed.

Lemma overwritten_step (i n : nat) (v : A) (a b : array A) :
  overwritten i (S n) a b ->
  overwritten (S i) n (array_set i v a) (array_set i v b).
Proof.
  intros (Hfirst & Hskip & Ha & Hb).
  rewrite (array_set_split i v a Ha), (array_set_split i v b Hb).
  assert (La : length (firstn i a) = i) by (rewrite length_firstn; lia).
  assert (Lb : length (firstn i b) = i) by (rewrite length_firstn; lia).
  repeat split.
  - rewrite !firstn_app, La, Lb.
    rewrite (firstn_all2 (firstn i a)), (firstn_all2 (firstn i b))
      by (rewrite ?La, ?Lb; lia).
    replace (S i - i)%nat with 1%nat by lia. cbn [firstn]. now rewrite Hfirst.
  - rewrite !skipn_app, La, Lb.
    rewrite (skipn_all2 (firstn i a)), (skipn_all2 (firstn i b))
      by (rewrite ?La, ?Lb; lia).
    replace (S i + n - i)%nat with (S n) by lia. cbn [app].
    rewrite !skipn_cons, !skipn_skipn. replace (n + S i)%nat with (i + S n)%nat by lia.
    exact Hskip.
  - rewrite length_app, La. simpl. lia.
  - rewrite length_app, Lb. simpl. lia.
Qed.

Lemma overwritten_done (i : nat) (a b : array A) : overwritten i 0 a b -> a = b.
Proof.
  intros (Hfirst & Hskip & _ & _). rewrite Nat.add_0_r in Hskip.
  rewrite <- (firstn_skipn i a), <- (firstn_skipn i b). now rewrite Hfirst, Hskip.
Qed.

Lemma overwritten_start (n : nat) (a : array A) :
  length a <= n -> overwritten 0 n a [].
Proof.
  intros Hlen. repeat split; simpl; try lia.
  rewrite skipn_all2 by exact Hlen. now rewrite skipn_nil.
Qed.
End Overwriting.

Section RunMore.
Context {num : Type} `{JSNumber num} `{JSMath num}.
Local Open Scope js_scope.

(** The loop of [run] on two states of the globals that differ at most
    where it writes: it returns on the same draws, with the same arrays. *)
Lemma run_loop_overwrites n :
  forall i (g h : globals) rs,
    overwritten i n (biAmounts g) (biAmounts h) ->
    overwritten i n (biTotals g) (biTotals h) ->
    overwritten i n (bjAmounts g) (bjAmounts h) ->
    overwritten i n (bjTotals g) (bjTotals h) ->
    match run_loop n i g rs, run_loop n i h rs with
    | Some (g', r1), Some (h', r2) =>
        r1 = r2 /\ biAmounts g' = biAmounts h' /\ biTotals g' = biTotals h' /\
        bjAmounts g' = bjAmounts h' /\ bjTotals g' = bjTotals h'
    | None, None => True
    | _, _ => False
    end.
Proof.
  induction n as [|n IH]; intros i g h rs H1 H2 H3 H4.
  - cbn [run_loop]. unfold ret.
    repeat split; eapply overwritten_done; eassumption.
  - cbn [run_loop]. unfold bind.
    destruct (basicIncomeCostBenefit rs) as [[bi rs1]|]; [|exact I].
    destruct (basicJobCostBenefit rs1) as [[bj rs2]|]; [|exact I].
    apply IH; cbn [biAmounts biTotals bjAmounts bjTotals];
      now apply overwritten_step.
Qed.

Lemma reachable_lengths (g : globals) :
  reachable g ->
  length (biAmounts g) <= 1000 /\ length (biTotals g) <= 1000 /\
  length (bjAmounts g) <= 1000 /\ length (bjTotals g) <= 1000.
Proof.
  intros Hreach. destruct (reachable_coherent g Hreach) as ([_ _ Tbi Tbj] & Lbi & Lbj).
  rewrite Tbi, Tbj, !length_map. lia.
Qed.
End RunMore.

(** X12: a call of [run] replaces what the earlier calls left: from any
    state of the globals that the page can be in, it returns what it returns
    from the initial globals on the same draws. *)
Theorem run_replaces_previous_results
    {num : Type} `{JSNumber num} `{JSMath num} (g : globals) (rs : list num) :
  reachable g -> run g rs = run initial_globals rs.
Proof.
  intros Hreach. destruct (reachable_lengths g Hreach) as (L1 & L2 & L3 & L4).
  unfold run, run_with. change (Z.to_nat 1000) with 1000%nat.
  pose proof (run_loop_overwrites 1000 0 g initial_globals rs
                (overwritten_start _ _ L1) (overwritten_start _ _ L2)
                (overwritten_start _ _ L3) (overwritten_start _ _ L4)) as Hloop.
  unfold bind.
  destruct (run_loop 1000 0 g rs) as [[g' r1]|],
           (run_loop 1000 0 initial_globals rs) as [[h' r2]|];
    try contradiction; [|reflexivity].
  destruct Hloop as (-> & -> & -> & -> & ->). reflexivity.
Qed.

Section RunReads.
Context {num : Type} `{JSNumber num} `{JSMath num}.
Local Open Scope js_scope.

Lemma reads_run_loop n :
  forall i (g : globals) rs g' rs',
    run_loop n i g rs = Some (g', rs') ->
    exists used k,
      length used = (2 * (6 * n + k))%nat /\ reads (run_loop n i g) rs g' rs' used.
Proof.
  induction n as [|n IH]; intros i g rs g' rs' Hrun; cbn [run_loop] in *.
  - apply ret_Some in Hrun as [<- <-]. exists [], 0%nat.
    split; [reflexivity | apply reads_ret].
  - rand_inv Hrun.
    apply reads_basicIncomeCostBenefit in Hstep as (u1 & k1 & L1 & R1).
    apply reads_basicJobCostBenefit in Hstep0 as (u2 & k2 & L2 & R2).
    apply IH in Hrun as (u3 & k3 & L3 & R3).
    exists (u1 ++ u2 ++ u3), (k1 + k2 + k3)%nat.
    split; [rewrite !length_app, L1, L2, L3; lia|].
    eapply reads_bind; [exact R1|].
    eapply reads_bind; [exact R2 | exact R3].
Qed.

(** The objects stored by the loop of [run] are results of the models. *)
Lemma run_loop_outputs n :
  forall i (g : globals) rs g' rs',
    dense basicIncome_output (biAmounts g) ->
    dense basicJob_output (bjAmounts g) ->
    i <= length (biAmounts g) -> i <= length (bjAmounts g) ->
    run_loop n i g rs = Some (g', rs') ->
    dense basicIncome_output (biAmounts g') /\
    dense basicJob_output (bjAmounts g').
Proof.
  induction n as [|n IH]; intros i g rs g' rs' Dbi Dbj Lbi Lbj Hrun;
    cbn [run_loop] in Hrun.
  - apply ret_Some in Hrun as [<- <-]. split; assumption.
  - rand_inv Hrun. rename a into bi, a0 into bj.
    assert (Obi : basicIncome_output bi) by (do 2 eexists; exact Hstep).
    assert (Obj : basicJob_output bj) by (do 2 eexists; exact Hstep0).
    destruct (dense_array_set _ i bi _ Dbi Obi Lbi) as [Dbi' Lbi'].
    destruct (dense_array_set _ i bj _ Dbj Obj Lbj) as [Dbj' Lbj'].
    apply IH in Hrun; cbn [biAmounts bjAmounts]; try assumption; lia.
Qed.

Lemma reachable_outputs (g : globals) :
  reachable g ->
  dense basicIncome_output (biAmounts g) /\ dense basicJob_output (bjAmounts g).
Proof.
  induction 1 as [|g rs g' rs' Hreach [Dbi Dbj] Hrun].
  - split; constructor.
  - apply run_with_inv in Hrun as (g1 & Hloop & ->). cbn [biAmounts bjAmounts].
    eapply run_loop_outputs; try eassumption; lia.
Qed.
End RunReads.

(** X13: a call of [run] that returns has read an even number of draws, at
    least 12000, and leaves the same globals whatever draws follow the ones
    it read. *)
Theorem run_reads_even_prefix
    {num : Type} `{JSNumber num} `{JSMath num} (g : globals) (rs : list num) g' rs' :
  run g rs = Some (g', rs') ->
  exists used k,
    rs = used ++ rs' /\ length used = (2 * (6 * 1000 + k))%nat /\
    forall rest, run g (used ++ rest) = Some (g', rest).
Proof.
  intros Hrun. apply run_with_inv in Hrun as (g1 & Hloop & Hg').
  apply reads_run_loop in Hloop as (used & k & Hlen & Hsplit & Hframe).
  exists used, k. split; [exact Hsplit|].
  split; [exact Hlen|].
  intros rest. apply run_with_inv. exists g1. split; [apply Hframe | exact Hg'].
Qed.

Section ExactRunAverages.
Local Open Scope R_scope.

Lemma component_sum_constant key c (trials : list (object R)) :
  Forall (fun a => get key a = Some c) trials ->
  component_sum key trials = IZR (Z.of_nat (length trials)) * c.
Proof.
  unfold component_sum. induction 1 as [|a trials Ha _ IH]; cbn [fold_right length].
  - simpl. lra.
  - rewrite Ha, IH, Nat2Z.inj_succ, succ_IZR. lra.
Qed.

Lemma component_sum_nonpositive key (trials : list (object R)) :
  Forall (fun a => exists v, get key a = Some v /\ v <= 0) trials ->
  component_sum key trials <= 0.
Proof.
  unfold component_sum. induction 1 as [|a trials (v & Ha & Hv) _ IH]; cbn [fold_right].
  - lra.
  - rewrite Ha. lra.
Qed.

Lemma has_key_nonempty key (trials : list (object R)) :
  trials <> [] -> Forall (fun a => In key (Object_keys a)) trials ->
  existsb (hasOwnProperty key) trials = true.
Proof.
  intros Hne Hall. destruct trials as [|a trials]; [contradiction|].
  apply Forall_cons_iff in Hall as [Ha _]. cbn [existsb].
  apply get_own_key in Ha as [v Hv]. unfold hasOwnProperty. now rewrite Hv.
Qed.

Lemma basicIncome_output_facts (amounts : object R) :
  basicIncome_output amounts ->
  Object_keys amounts = basicIncomeKeys /\
  get "directCosts" amounts = Some 1645750000000 /\
  exists v, get "jkRowling" amounts = Some v /\ v <= 0.
Proof.
  intros (rs & rs' & Hrun). apply basicIncomeCostBenefit_inv in Hrun.
  destruct Hrun as (a & m & pm & c & rs1 & rs2 & rs3 & _ & _ & _ & Hc & ->).
  split; [reflexivity|]. split.
  - cbn [get String.eqb Ascii.eqb Bool.eqb]. f_equal.
    unfold numAdults, basicIncome. exact_arith. lra.
  - eexists. split; [reflexivity|].
    apply binomRand_inv in Hc as (g & _ & ->). rewrite clamp_Rmax.
    pose proof (Rmax_r (Math_round g) 0) as Hpos. exact_arith. nra.
Qed.

Lemma basicJob_output_keys (amounts : object R) :
  basicJob_output amounts -> Object_keys amounts = basicJobKeys.
Proof. intros (rs & rs' & Hrun). eapply basicJobCostBenefit_keys, Hrun. Qed.

Lemma NoDup_basicIncomeKeys : NoDup basicIncomeKeys.
Proof.
  unfold basicIncomeKeys.
  repeat (constructor; [simpl; intuition discriminate|]). constructor.
Qed.

Lemma NoDup_basicJobKeys : NoDup basicJobKeys.
Proof.
  unfold basicJobKeys.
  repeat (constructor; [simpl; intuition discriminate|]). constructor.
Qed.

(** What a call of [run] leaves, over exact arithmetic: 1000 results of
    each model and their averages, component by component. *)
Lemma run_average_facts (g : globals) (rs : list R) g' rs' :
  reachable g -> run g rs = Some (g', rs') ->
  exists bi bj biAvg bjAvg,
    biAmounts g' = map Some bi /\ bjAmounts g' = map Some bj /\
    length bi = 1000%nat /\ length bj = 1000%nat /\
    Forall basicIncome_output bi /\ Forall basicJob_output bj /\
    biAmountsAvg g' = Some biAvg /\ bjAmountsAvg g' = Some bjAvg /\
    (forall key, In key basicIncomeKeys ->
                 get key biAvg = Some (component_sum key bi / 1000)) /\
    (forall key, In key basicJobKeys ->
                 get key bjAvg = Some (component_sum key bj / 1000)).
Proof.
  intros Hreach Hrun.
  destruct (run_1000_trials_facts g rs g' rs' Hreach Hrun)
    as (bi & bj & Lbi & Lbj & Ebi & _ & Ebj & _).
  destruct (reachable_outputs g' (reachable_run g rs g' rs' Hreach Hrun)) as [Dbi Dbj].
  apply dense_elements in Dbi as (_ & Obi & _).
  apply dense_elements in Dbj as (_ & Obj & _).
  rewrite Ebi, elements_map_Some in Obi. rewrite Ebj, elements_map_Some in Obj.
  apply run_with_inv in Hrun as (g1 & _ & Hg'). rewrite Hg' in *.
  cbn [biAmounts bjAmounts biAmountsAvg bjAmountsAvg] in *.
  exists bi, bj. do 2 eexists.
  do 6 (split; [first [assumption | reflexivity]|]).
  split; [reflexivity|]. split; [reflexivity|].
  rewrite Ebi, Ebj. split; intros key Hkey; rewrite average_component, elements_map_Some, lit_Z.
  - rewrite has_key_nonempty; [reflexivity | intros ->; discriminate Lbi |].
    eapply Forall_impl; [|exact Obi]. intros a Ha.
    apply basicIncome_output_facts in Ha as (-> & _). exact Hkey.
  - rewrite elements_map_Some. eapply Forall_impl; [|exact Obi]. intros a Ha.
    apply basicIncome_output_facts in Ha as (-> & _). apply NoDup_basicIncomeKeys.
  - rewrite has_key_nonempty; [reflexivity | intros ->; discriminate Lbj |].
    eapply Forall_impl; [|exact Obj]. intros a Ha.
    apply basicJob_output_keys in Ha as ->. exact Hkey.
  - rewrite elements_map_Some. eapply Forall_impl; [|exact Obj]. intros a Ha.
    apply basicJob_output_keys in Ha as ->. apply NoDup_basicJobKeys.
Qed.

(** X14: over exact arithmetic, after a call of [run] each average maps
    each key of its model to the arithmetic mean of that component over the
    1000 trials. *)
Theorem run_averages_are_means (g : globals) (rs : list R) g' rs' :
  reachable g -> run g rs = Some (g', rs') ->
  exists bi bj biAvg bjAvg,
    biAmounts g' = map Some bi /\ bjAmounts g' = map Some bj /\
    biAmountsAvg g' = Some biAvg /\ bjAmountsAvg g' = Some bjAvg /\
    (forall key, In key basicIncomeKeys ->
                 get key biAvg
                 = Some (component_sum key bi / IZR (Z.of_nat (length bi)))) /\
    (forall key, In key basicJobKeys ->
                 get key bjAvg
                 = Some (component_sum key bj / IZR (Z.of_nat (length bj)))).
Proof.
  intros Hreach Hrun.
  destruct (run_average_facts g rs g' rs' Hreach Hrun)
    as (bi & bj & biAvg & bjAvg & Ebi & Ebj & Lbi & Lbj & _ & _ & Abi & Abj & Mbi & Mbj).
  exists bi, bj, biAvg, bjAvg. rewrite Lbi, Lbj.
  repeat split; assumption.
Qed.

(** X15: over exact arithmetic, after a call of [run] the average of the
    basic income model has [directCosts] equal to 1.64575e12 and a
    [jkRowling] that is not positive. *)
Theorem run_average_directCosts (g : globals) (rs : list R) g' rs' :
  reachable g -> run g rs = Some (g', rs') ->
  exists biAvg jk,
    biAmountsAvg g' = Some biAvg /\
    get "directCosts" biAvg = Some 1645750000000 /\
    get "jkRowling" biAvg = Some jk /\ jk <= 0.
Proof.
  intros Hreach Hrun.
  destruct (run_average_facts g rs g' rs' Hreach Hrun)
    as (bi & bj & biAvg & bjAvg & _ & _ & Lbi & _ & Obi & _ & Abi & _ & Mbi & _).
  exists biAvg. eexists. split; [exact Abi|].
  split; [|split].
  - rewrite Mbi by (simpl; tauto). f_equal.
    rewrite (component_sum_constant _ 1645750000000), Lbi.
    + simpl. lra.
    + eapply Forall_impl; [|exact Obi]. intros a Ha.
      now apply basicIncome_output_facts in Ha as (_ & Hdc & _).
  - apply Mbi. simpl. tauto.
  - assert (Hsum : component_sum "jkRowling" bi <= 0).
    { apply component_sum_nonpositive.
      eapply Forall_impl; [|exact Obi]. intros a Ha.
      now apply basicIncome_output_facts in Ha as (_ & _ & Hjk). }
    lra.
Qed.
End ExactRunAverages.

(** ** The bar charts *)

Section SortFacts.

Lemma insert_key_In (x k : string) (ks : list string) :
  In x (insert_key k ks) <-> x = k \/ In x ks.
Proof.
  induction ks as [|k' ks IH]; cbn [insert_key].
  - simpl. intuition.
  - destruct (String.leb k k'); simpl in *; rewrite ?IH; intuition.
Qed.

Lemma Array_sort_In (x : string) (ks : list string) :
  In x (Array_sort ks) <-> In x ks.
Proof.
  unfold Array_sort. induction ks as [|k ks IH]; cbn [fold_right].
  - tauto.
  - rewrite insert_key_In, IH. simpl. intuition.
Qed.

Lemma insert_key_Permutation (k : string) (ks : list string) :
  Permutation (insert_key k ks) (k :: ks).
Proof.
  induction ks as [|k' ks IH]; cbn [insert_key].
  - reflexivity.
  - destruct (String.leb k k'); [reflexivity|].
    rewrite IH. apply perm_swap.
Qed.

Lemma Array_sort_Permutation (ks : list string) : Permutation (Array_sort ks) ks.
Proof.
  unfold Array_sort. induction ks as [|k ks IH]; cbn [fold_right].
  - constructor.
  - rewrite insert_key_Permutation. now constructor.
Qed.

Lemma insert_key_HdRel (a k : string) (ks : list string) :
  String.leb a k = true ->
  HdRel (fun x y => String.leb x y = true) a ks ->
  HdRel (fun x y => String.leb x y = true) a (insert_key k ks).
Proof.
  intros Hak Hhd. destruct ks as [|k' ks]; cbn [insert_key].
  - now constructor.
  - destruct (String.leb k k'); constructor; [exact Hak|].
    now inversion Hhd.
Qed.

Lemma insert_key_Sorted (k : string) (ks : list string) :
  Sorted (fun x y => String.leb x y = true) ks ->
  Sorted (fun x y => String.leb x y = true) (insert_key k ks).
Proof.
  induction 1 as [|k' ks Hsorted IH Hhd]; cbn [insert_key].
  - repeat constructor.
  - destruct (String.leb k k') eqn:Hle.
    + constructor; [now constructor | now constructor].
    + constructor; [exact IH|]. apply insert_key_HdRel; [|exact Hhd].
      destruct (String.leb_total k k') as [Habs|Hok]; [congruence | exact Hok].
Qed.

Lemma Array_sort_Sorted (ks : list string) :
  Sorted (fun x y => String.leb x y = true) (Array_sort ks).
Proof.
  unfold Array_sort. induction ks as [|k ks IH]; cbn [fold_right].
  - constructor.
  - now apply insert_key_Sorted.
Qed.
End SortFacts.

Section ChartFacts.
Context {num : Type} `{JSNumber num} `{JSMathBars num}.
Local Open Scope js_scope.

Lemma sorted_entries_In (amounts : object num) category v :
  In (category, v) (sorted_entries amounts) <-> get category amounts = Some v.
Proof.
  unfold sorted_entries. rewrite in_flat_map. split.
  - intros (c & _ & Hin). destruct (get c amounts) as [w|] eqn:Hw; simpl in Hin;
      [|contradiction].
    destruct Hin as [Heq|[]]. now inversion Heq; subst.
  - intros Hv. exists category. split.
    + apply Array_sort_In, get_own_key. eauto.
    + rewrite Hv. now left.
Qed.

Lemma sorted_entries_categories (amounts : object num) :
  map fst (sorted_entries amounts) = Array_sort (Object_keys amounts).
Proof.
  unfold sorted_entries.
  assert (Hown : forall c, In c (Array_sort (Object_keys amounts)) ->
                           exists v, get c amounts = Some v)
    by (intros c Hc; now apply get_own_key, Array_sort_In).
  revert Hown. generalize (Array_sort (Object_keys amounts)) as cs.
  induction cs as [|c cs IH]; intros Hown; cbn [flat_map].
  - reflexivity.
  - destruct (Hown c) as [v Hv]; [now left|]. rewrite Hv. cbn [app map fst].
    f_equal. apply IH. intros c' Hc'. apply Hown. now right.
Qed.

Lemma bars_data_entries (amounts amounts2 : object num) :
  map (fun d => (category d, value d)) (bars_data amounts amounts2)
  = sorted_entries amounts.
Proof.
  unfold bars_data. cbv zeta.
  destruct (map snd (sorted_entries amounts) ++ map snd (sorted_entries amounts2))
    as [|x xs] eqn:Hvalues.
  - apply app_eq_nil in Hvalues as [Hnil _].
    apply map_eq_nil in Hnil. now rewrite Hnil.
  - rewrite map_map. rewrite <- (map_id (sorted_entries amounts)) at 2.
    apply map_ext. now intros [c v].
Qed.
End ChartFacts.

(** X16: on every number instance the table of [bars] has one row for each
    own key of [amounts], the rows are in ascending order of their
    category, and the value of a row is [amounts[category]]; the second
    object adds no row. *)
Theorem bars_rows
    {num : Type} `{JSNumber num} `{JSMathBars num} (amounts amounts2 : object num) :
  Permutation (map category (bars_data amounts amounts2)) (Object_keys amounts) /\
  Sorted (fun x y => String.leb x y = true)
         (map category (bars_data amounts amounts2)) /\
  forall d, In d (bars_data amounts amounts2) ->
            get (category d) amounts = Some (value d).
Proof.
  assert (Hcat : map category (bars_data amounts amounts2)
                 = Array_sort (Object_keys amounts)).
  { rewrite <- sorted_entries_categories, <- (bars_data_entries amounts amounts2).
    now rewrite map_map. }
  rewrite Hcat. split; [apply Array_sort_Permutation|].
  split; [apply Array_sort_Sorted|].
  intros d Hd. apply sorted_entries_In.
  rewrite <- (bars_data_entries amounts amounts2).
  apply (in_map (fun d => (category d, value d))), Hd.
Qed.

Section RenderFacts.
Context {num : Type} `{JSNumber num} `{JSMath num}.

(** After [run] the averages are set and list the keys of their model. *)
Lemma run_average_keys (g : globals) (rs : list num) g' rs' :
  reachable g -> run g rs = Some (g', rs') ->
  exists biAvg bjAvg,
    biAmountsAvg g' = Some biAvg /\ Object_keys biAvg = basicIncomeKeys /\
    bjAmountsAvg g' = Some bjAvg /\ Object_keys bjAvg = basicJobKeys.
Proof.
  intros Hreach Hrun.
  destruct (reachable_coherent g Hreach) as (Hg & Hbi & Hbj).
  destruct (run_coherent _ _ _ _ Hg Hbi Hbj Hrun) as ([Dbi Dbj _ _] & Lbi & Lbj).
  destruct (dense_elements _ _ Dbi) as (_ & Kbi & Ebi).
  destruct (dense_elements _ _ Dbj) as (_ & Kbj & Ebj).
  apply run_with_inv in Hrun as (g1 & _ & ->).
  cbn [biAmounts bjAmounts biAmountsAvg bjAmountsAvg] in *.
  do 2 eexists. split; [reflexivity|]. split; [|split; [reflexivity|]].
  - rewrite array_reduce_elements. apply average_keys; try reflexivity; [|exact Kbi].
    intros Hnil. rewrite Hnil in Ebi. simpl in Ebi. lia.
  - rewrite array_reduce_elements. apply average_keys; try reflexivity; [|exact Kbj].
    intros Hnil. rewrite Hnil in Ebj. simpl in Ebj. lia.
Qed.
End RenderFacts.

(** X17: [render] needs the averages that [run] sets: on the initial
    globals [Object.keys(undefined)] throws, and after a call of [run] the
    two tables have four rows each, for the basic income model
    administrativeCosts, directCosts, jkRowling, productivity and for the
    basic job model administrativeCosts, directCosts, disabled,
    productivity, in this order. *)
Theorem render_rows_after_run
    {num : Type} `{JSNumber num} `{JSMath num} `{JSMathBars num}
    (g : globals) (rs : list num) g' rs' :
  reachable g -> run g rs = Some (g', rs') ->
  render_bars (num := num) initial_globals = None /\
  exists biBars bjBars,
    render_bars g' = Some (biBars, bjBars) /\
    map category biBars
    = ["administrativeCosts"; "directCosts"; "jkRowling"; "productivity"] /\
    map category bjBars
    = ["administrativeCosts"; "directCosts"; "disabled"; "productivity"].
Proof.
  intros Hreach Hrun. split; [reflexivity|].
  destruct (run_average_keys g rs g' rs' Hreach Hrun)
    as (biAvg & bjAvg & Abi & Kbi & Abj & Kbj).
  unfold render_bars. rewrite Abi, Abj. do 2 eexists. split; [reflexivity|].
  assert (Hcat : forall a b : object num,
             map category (bars_data a b) = Array_sort (Object_keys a)).
  { intros a b.
    rewrite <- sorted_entries_categories, <- (bars_data_entries a b).
    now rewrite map_map. }
  rewrite !Hcat, Kbi, Kbj. split; reflexivity.
Qed.

Section ExactCharts.
Local Open Scope R_scope.

Lemma fold_Rmax_spec (xs : list R) :
  forall x,
    In (fold_left Rmax xs x) (x :: xs) /\
    forall y, In y (x :: xs) -> y <= fold_left Rmax xs x.
Proof.
  induction xs as [|a xs IH]; intros x; cbn [fold_left].
  - split; [now left | intros y [<-|[]]; lra].
  - destruct (IH (Rmax x a)) as [Hin Hub]. split.
    + destruct Hin as [Heq|Hin]; [|right; now right].
      rewrite <- Heq. unfold Rmax. destruct (Rle_dec x a); simpl; tauto.
    + intros y Hy.
      assert (Hxa : x <= Rmax x a /\ a <= Rmax x a) by (split; [apply Rmax_l | apply Rmax_r]).
      destruct Hy as [<-|[<-|Hy]].
      * apply Rle_trans with (Rmax x a); [tauto | apply Hub; now left].
      * apply Rle_trans with (Rmax x a); [tauto | apply Hub; now left].
      * apply Hub. now right.
Qed.

Lemma fold_Rmin_spec (xs : list R) :
  forall x,
    In (fold_left Rmin xs x) (x :: xs) /\
    forall y, In y (x :: xs) -> fold_left Rmin xs x <= y.
Proof.
  induction xs as [|a xs IH]; intros x; cbn [fold_left].
  - split; [now left | intros y [<-|[]]; lra].
  - destruct (IH (Rmin x a)) as [Hin Hlb]. split.
    + destruct Hin as [Heq|Hin]; [|right; now right].
      rewrite <- Heq. unfold Rmin. destruct (Rle_dec x a); simpl; tauto.
    + intros y Hy.
      assert (Hxa : Rmin x a <= x /\ Rmin x a <= a) by (split; [apply Rmin_l | apply Rmin_r]).
      destruct Hy as [<-|[<-|Hy]].
      * apply Rle_trans with (Rmin x a); [apply Hlb; now left | tauto].
      * apply Rle_trans with (Rmin x a); [apply Hlb; now left | tauto].
      * apply Hlb. now right.
Qed.

Lemma lit_100 : @lit R _ 100 = 100.
Proof. exact_arith. lra. Qed.

Lemma lit_1 : @lit R _ 1 = 1.
Proof. exact_arith. lra. Qed.

Lemma lit_0 : @lit R _ 0 = 0.
Proof. exact_arith. lra. Qed.

Lemma chart_value_In (amounts amounts2 : object R) (v : R) :
  In v (map snd (sorted_entries amounts) ++ map snd (sorted_entries amounts2)) <->
  exists key, get key amounts = Some v \/ get key amounts2 = Some v.
Proof.
  rewrite in_app_iff, !in_map_iff. split.
  - intros [([k w] & Hw & Hin)|([k w] & Hw & Hin)]; simpl in Hw; subst w;
      apply sorted_entries_In in Hin; exists k; tauto.
  - intros (k & [Hk|Hk]); [left|right]; exists (k, v);
      (split; [reflexivity | now apply sorted_entries_In]).
Qed.

(** A bar of [bars], over exact arithmetic: the scale is set by the largest
    and the smallest value of the two objects together. *)
Lemma bars_data_exact (amounts amounts2 : object R) (d : bar R) :
  In d (bars_data amounts amounts2) ->
  exists maxValue minValue,
    (exists key, get key amounts = Some maxValue \/ get key amounts2 = Some maxValue) /\
    (exists key, get key amounts = Some minValue \/ get key amounts2 = Some minValue) /\
    (forall key v, get key amounts = Some v \/ get key amounts2 = Some v ->
                   minValue <= v <= maxValue) /\
    get (category d) amounts = Some (value d) /\
    width d = Rabs (value d * 100 / (maxValue - minValue)) /\
    sign d = Rsign (value d * 100 / (maxValue - minValue)) /\
    offset d =
      (if Reqb (Rsign (value d * 100 / (maxValue - minValue))) 1
       then (if Rgtb minValue 0 || Rgtb 0 maxValue then 0
             else - minValue * 100 / (maxValue - minValue))
       else (if Rgtb minValue 0 || Rgtb 0 maxValue then 0
             else - minValue * 100 / (maxValue - minValue))
            + value d * 100 / (maxValue - minValue)).
Proof.
  unfold bars_data. cbv zeta.
  pose proof (chart_value_In amounts amounts2) as Hvalues.
  destruct (map snd (sorted_entries amounts) ++ map snd (sorted_entries amounts2))
    as [|x xs]; [contradiction|].
  intros Hd. apply in_map_iff in Hd as ([c v] & <- & Hcv).
  apply sorted_entries_In in Hcv.
  cbn [Math_max Math_min Math_abs Math_sign exact_bars js_mul js_div js_sub js_neg
       js_add js_gt js_strict_eq exact_number value offset width sign category].
  rewrite lit_100, lit_1, lit_0.
  destruct (fold_Rmax_spec xs x) as [Hmax_in Hmax].
  destruct (fold_Rmin_spec xs x) as [Hmin_in Hmin].
  exists (fold_left Rmax xs x), (fold_left Rmin xs x).
  split; [now apply Hvalues|]. split; [now apply Hvalues|].
  split.
  - intros key w Hw. split; [apply Hmin | apply Hmax]; apply Hvalues; eauto.
  - repeat split; try reflexivity. exact Hcv.
Qed.

Lemma bar_fits (maxValue minValue v : R) :
  minValue <= 0 -> 0 <= maxValue -> minValue < maxValue ->
  minValue <= v <= maxValue ->
  let scaled := v * 100 / (maxValue - minValue) in
  let zero := if Rgtb minValue 0 || Rgtb 0 maxValue then 0
              else - minValue * 100 / (maxValue - minValue) in
  let offset := if Reqb (Rsign scaled) 1 then zero else zero + scaled in
  0 <= offset /\ 0 <= Rabs scaled /\ offset + Rabs scaled <= 100 /\
  (Reqb (Rsign scaled) 1 = true <-> 0 < v).
Proof.
  intros Hmin Hmax Hlt Hv scaled zero offset.
  assert (Hc : 0 < / (maxValue - minValue)) by (apply Rinv_0_lt_compat; lra).
  assert (HcD : (maxValue - minValue) * / (maxValue - minValue) = 1)
    by (apply Rinv_r; lra).
  assert (Hzero : zero = - minValue * 100 * / (maxValue - minValue)).
  { unfold zero. destruct (Rgtb_spec minValue 0); [lra|].
    destruct (Rgtb_spec 0 maxValue); [lra | reflexivity]. }
  assert (Hscaled : scaled = v * 100 * / (maxValue - minValue)) by reflexivity.
  set (c := / (maxValue - minValue)) in *.
  assert (Hsign : Reqb (Rsign scaled) 1 = true <-> 0 < v).
  { unfold Rsign. destruct (Rgt_dec scaled 0) as [Hpos|Hneg].
    - destruct (Reqb_spec 1 1); [|lra]. split; [intros _; nra | reflexivity].
    - destruct (Rlt_dec scaled 0).
      + destruct (Reqb_spec (-1) 1); [lra|]. split; [discriminate | nra].
      + destruct (Reqb_spec 0 1); [lra|]. split; [discriminate | nra]. }
  split; [|split; [apply Rabs_pos | split; [|exact Hsign]]].
  - unfold offset. destruct (Reqb (Rsign scaled) 1); nra.
  - unfold offset. destruct (Reqb (Rsign scaled) 1) eqn:Hred.
    + assert (Hvpos : 0 < v) by now apply Hsign.
      rewrite Rabs_right by nra. nra.
    + assert (Hvneg : ~ 0 < v) by (intros Hpos; apply Hsign in Hpos; congruence).
      rewrite Rabs_left1 by nra. nra.
Qed.

(** X18: over exact arithmetic, when the values of the two objects
    together reach from a value [lo <= 0] to a value [hi >= 0], [lo < hi],
    every bar lies within the 100 pixels of the scale, and it is red
    exactly when its value is positive. *)
Theorem bars_fit_scale (amounts amounts2 : object R) (lo hi : R) :
  (exists key, get key amounts = Some lo \/ get key amounts2 = Some lo) ->
  (exists key, get key amounts = Some hi \/ get key amounts2 = Some hi) ->
  lo <= 0 -> 0 <= hi -> lo < hi ->
  forall d, In d (bars_data amounts amounts2) ->
            0 <= offset d /\ 0 <= width d /\ offset d + width d <= 100 /\
            (background_color d = "red" <-> 0 < value d).
Proof.
  intros (klo & Hlo) (khi & Hhi) Hlo0 Hhi0 Hlt d Hd.
  destruct (bars_data_exact _ _ _ Hd)
    as (maxValue & minValue & _ & _ & Hrange & _ & Hwidth & Hsign & Hoffset).
  destruct (Hrange _ _ Hlo) as [Hlo1 Hlo2]. destruct (Hrange _ _ Hhi) as [Hhi1 Hhi2].
  assert (Hv : minValue <= value d <= maxValue).
  { destruct (bars_data_exact _ _ _ Hd) as (M & m & HM & Hm & _ & Hget & _).
    apply (Hrange (category d)). now left. }
  destruct (bar_fits maxValue minValue (value d)) as (F1 & F2 & F3 & F4); try lra.
  rewrite Hoffset, Hwidth. repeat split; try assumption.
  - unfold background_color. rewrite Hsign.
    cbn [js_strict_eq exact_number]. rewrite lit_1.
    destruct (Reqb _ 1); [intros _; now apply F4 | discriminate].
  - intros Hpos. unfold background_color. rewrite Hsign.
    cbn [js_strict_eq exact_number]. rewrite lit_1.
    apply F4 in Hpos. now rewrite Hpos.
Qed.

(** X19: over exact arithmetic, every bar of the two tables that [render]
    draws after a call of [run] lies within the 100 pixels of the scale. *)
Theorem render_bars_fit_after_run (g : globals) (rs : list R) g' rs' :
  reachable g -> run g rs = Some (g', rs') ->
  exists biBars bjBars,
    render_bars g' = Some (biBars, bjBars) /\
    forall d, In d biBars \/ In d bjBars ->
              0 <= offset d /\ 0 <= width d /\ offset d + width d <= 100.
Proof.
  intros Hreach Hrun.
  destruct (run_average_facts g rs g' rs' Hreach Hrun)
    as (bi & bj & biAvg & bjAvg & _ & _ & Lbi & _ & Obi & _ & Abi & Abj & Mbi & _).
  assert (Hdc : get "directCosts" biAvg = Some 1645750000000).
  { rewrite Mbi by (simpl; tauto). f_equal.
    rewrite (component_sum_constant _ 1645750000000), Lbi.
    - simpl. lra.
    - eapply Forall_impl; [|exact Obi]. intros a Ha.
      now apply basicIncome_output_facts in Ha as (_ & Hdc & _). }
  assert (Hjk : component_sum "jkRowling" bi / 1000 <= 0).
  { assert (Hsum : component_sum "jkRowling" bi <= 0).
    { apply component_sum_nonpositive.
      eapply Forall_impl; [|exact Obi]. intros a Ha.
      now apply basicIncome_output_facts in Ha as (_ & _ & Hjk). }
    lra. }
  assert (Hjk_get : get "jkRowling" biAvg = Some (component_sum "jkRowling" bi / 1000))
    by (apply Mbi; simpl; tauto).
  unfold render_bars. rewrite Abi, Abj. do 2 eexists. split; [reflexivity|].
  intros d [Hd|Hd].
  - destruct (bars_data_exact _ _ _ Hd)
      as (maxValue & minValue & _ & _ & Hrange & Hget & Hwidth & _ & Hoffset).
    destruct (Hrange "directCosts" _ (or_introl Hdc)).
    destruct (Hrange "jkRowling" _ (or_introl Hjk_get)).
    destruct (Hrange (category d) _ (or_introl Hget)).
    rewrite Hoffset, Hwidth.
    destruct (bar_fits maxValue minValue (value d)) as (F1 & F2 & F3 & _); lra.
  - destruct (bars_data_exact _ _ _ Hd)
      as (maxValue & minValue & _ & _ & Hrange & Hget & Hwidth & _ & Hoffset).
    destruct (Hrange "directCosts" _ (or_intror Hdc)).
    destruct (Hrange "jkRowling" _ (or_intror Hjk_get)).
    destruct (Hrange (category d) _ (or_introl Hget)).
    rewrite Hoffset, Hwidth.
    destruct (bar_fits maxValue minValue (value d)) as (F1 & F2 & F3 & _); lra.
Qed.

(** X20: over exact arithmetic, when all the values of the two objects are
    positive and not all equal, every bar of [bars] starts at offset 0 and
    is red, and the bar of the largest value is wider than the 100 pixels
    of the scale. *)
Theorem bars_all_positive_overflow
    (amounts amounts2 : object R) (key : string) (lo hi : R) :
  get key amounts = Some hi ->
  (exists key', get key' amounts = Some lo \/ get key' amounts2 = Some lo) ->
  (forall key' v, get key' amounts = Some v \/ get key' amounts2 = Some v ->
                  lo <= v <= hi) ->
  0 < lo -> lo < hi ->
  (forall d, In d (bars_data amounts amounts2) ->
             offset d = 0 /\ background_color d = "red" /\
             width d = value d * 100 / (hi - lo)) /\
  exists d, In d (bars_data amounts amounts2) /\ category d = key /\ 100 < width d.
Proof.
  intros Hhi (klo & Hlo) Hall Hpos Hlt.
  assert (Hscale : forall d, In d (bars_data amounts amounts2) ->
            0 < value d /\ 0 < value d * 100 / (hi - lo) /\
            offset d = 0 /\ sign d = 1 /\ width d = value d * 100 / (hi - lo)).
  { intros d Hd.
    destruct (bars_data_exact _ _ _ Hd)
      as (maxValue & minValue & (kM & HM) & (km & Hm) & Hrange & Hget & Hwidth & Hsign & Hoffset).
    assert (maxValue = hi).
    { apply Rle_antisym; [apply (Hall _ _ HM) | apply (Hrange key); now left]. }
    assert (minValue = lo).
    { apply Rle_antisym; [apply (Hrange _ _ Hlo) | apply (Hall _ _ Hm)]. }
    subst maxValue minValue.
    destruct (Hall (category d) (value d) (or_introl Hget)) as [Hv1 Hv2].
    assert (Hc : 0 < / (hi - lo)) by (apply Rinv_0_lt_compat; lra).
    assert (Hs : 0 < value d * 100 / (hi - lo)) by (unfold Rdiv; nra).
    assert (Hsg : Rsign (value d * 100 / (hi - lo)) = 1).
    { unfold Rsign. destruct (Rgt_dec (value d * 100 / (hi - lo)) 0); [reflexivity | lra]. }
    rewrite Hsg in Hoffset, Hsign.
    destruct (Reqb_spec 1 1); [|lra]. destruct (Rgtb_spec lo 0); [|lra].
    cbn [orb] in Hoffset. rewrite Hwidth, Rabs_right by lra.
    repeat split; first [assumption | lra]. }
  split.
  - intros d Hd. destruct (Hscale d Hd) as (_ & _ & Ho & Hs & Hw).
    split; [exact Ho|]. split; [|exact Hw].
    unfold background_color. rewrite Hs. cbn [js_strict_eq exact_number].
    rewrite lit_1. now destruct (Reqb_spec 1 1).
  - assert (Hin : In (key, hi) (map (fun d => (category d, value d))
                                    (bars_data amounts amounts2))).
    { rewrite bars_data_entries. now apply sorted_entries_In. }
    apply in_map_iff in Hin as (d & Heq & Hd). inversion Heq as [[Hc Hv]].
    exists d. split; [exact Hd|]. split; [reflexivity|].
    destruct (Hscale d Hd) as (_ & _ & _ & _ & Hw). rewrite Hw, Hv.
    assert (Hc' : 0 < / (hi - lo)) by (apply Rinv_0_lt_compat; lra).
    assert (HcD : (hi - lo) * / (hi - lo) = 1) by (apply Rinv_r; lra).
    unfold Rdiv. nra.
Qed.

(** X21: over exact arithmetic, the two calls [bars(a, b)] and
    [bars(b, a)] of [render] share one scale: bars of the two tables that
    show the same value have the same offset, width and sign. *)
Theorem bars_share_scale (amounts amounts2 : object R) (d d' : bar R) :
  In d (bars_data amounts amounts2) -> In d' (bars_data amounts2 amounts) ->
  value d = value d' ->
  offset d = offset d' /\ width d = width d' /\ sign d = sign d'.
Proof.
  intros Hd Hd' Hv.
  destruct (bars_data_exact _ _ _ Hd)
    as (M & m & (kM & HM) & (km & Hm) & Hrange & _ & Hwidth & Hsign & Hoffset).
  destruct (bars_data_exact _ _ _ Hd')
    as (M' & m' & (kM' & HM') & (km' & Hm') & Hrange' & _ & Hwidth' & Hsign' & Hoffset').
  assert (HMeq : M = M').
  { apply Rle_antisym; [apply (Hrange' kM); tauto | apply (Hrange kM'); tauto]. }
  assert (Hmeq : m = m').
  { apply Rle_antisym; [apply (Hrange km'); tauto | apply (Hrange' km); tauto]. }
  subst M' m'. rewrite <- Hv in *.
  rewrite Hoffset, Hoffset', Hwidth, Hwidth', Hsign, Hsign'. auto.
Qed.
End ExactCharts.

(** ** Instances of the further properties *)

Section FurtherWitnesses.
Local Open Scope R_scope.

Lemma bars_data_has_key (amounts amounts2 : object R) key v :
  get key amounts = Some v ->
  exists d, In d (bars_data amounts amounts2) /\ category d = key /\ value d = v.
Proof.
  intros Hget.
  assert (Hin : In (key, v) (map (fun d => (category d, value d))
                                 (bars_data amounts amounts2))).
  { rewrite bars_data_entries. now apply sorted_entries_In. }
  apply in_map_iff in Hin as (d & Heq & Hd). inversion Heq. now exists d.
Qed.

Lemma basicJob_three_quarters :
  exists amounts,
    basicJobCostBenefit (repeat (3 / 4) 6) = Some (amounts, []).
Proof.
  apply (basicJobCostBenefit_central (3 / 4) (3 / 4) (3 / 4) (3 / 4) (3 / 4) (3 / 4) []);
    apply central_three_quarters.
Qed.

(** X1 at [mu = 5], [sigma = 2] on the draws 1/2, 3/4, 1/4. *)
Lemma gaussRand_reads_even_prefix_witness :
  gaussRand (Some 5) (Some 2) [1 / 2; 3 / 4; 1 / 4] = Some (5, [1 / 4]) /\
  exists used k,
    [1 / 2; 3 / 4; 1 / 4] = used ++ [1 / 4] /\ length used = (2 * S k)%nat /\
    forall rest, gaussRand (Some 5) (Some 2) (used ++ rest) = Some (5, rest).
Proof.
  split; [apply gaussRand_zero_z1|].
  exact (gaussRand_reads_even_prefix (Some 5) (Some 2) _ 5 [1 / 4]
           (gaussRand_zero_z1 5 2 [1 / 4])).
Defined.

(** X2 at [mu = 5], [sigma = 2] on the draws 1/2, 3/4. *)
Lemma gaussRand_location_scale_witness :
  gaussRand (Some 5) (Some 2) [1 / 2; 3 / 4] = Some (5, []) /\
  exists g, gaussRand None None [1 / 2; 3 / 4] = Some (g, []) /\ 5 = 5 + 2 * g.
Proof.
  split; [apply gaussRand_zero_z1|].
  apply (proj1 (gaussRand_location_scale 5 2 [1 / 2; 3 / 4] 5 [])).
  apply gaussRand_zero_z1.
Defined.

(** X3 at [mu = 5], [sigma = 2] on the draws 1/2, 3/4. *)
Lemma gaussRand_mirror_witness :
  gaussRand (Some 5) (Some 2) [1 / 2; 3 / 4] = Some (5, []) /\
  gaussRand (Some 5) (Some 2) (map (fun u => 1 - u) [1 / 2; 3 / 4])
  = Some (2 * 5 - 5, map (fun u => 1 - u) []).
Proof.
  split; [apply gaussRand_zero_z1|].
  apply (gaussRand_mirror 5 2 [1 / 2; 3 / 4] 5 []). apply gaussRand_zero_z1.
Defined.

(** X4 at [N = 10], [p = 1/2] on the draws 1/2, 3/4. *)
Lemma binomRand_integer_witness :
  binomRand 10 (1 / 2) [1 / 2; 3 / 4] = Some (Rmax (Rround (10 * (1 / 2))) 0, []) /\
  exists k : Z, (0 <= k)%Z /\ Rmax (Rround (10 * (1 / 2))) 0 = IZR k.
Proof.
  split; [apply binomRand_zero_z1|].
  apply (binomRand_integer 10 (1 / 2) [1 / 2; 3 / 4] _ []). apply binomRand_zero_z1.
Defined.

(** X5 at [min = 3], [max = 2] and the draw 1/2. *)
Lemma uniformRand_reversed_range_witness :
  unit_draw (1 / 2) /\ 2 <= 3 /\
  uniformRand 3 2 [1 / 2] = Some (1 / 2 * (2 - 3) + 3, []) /\
  ([] = @nil R /\ 2 <= 1 / 2 * (2 - 3) + 3 <= 3 /\
   (2 < 3 -> 2 < 1 / 2 * (2 - 3) + 3) /\ (2 = 3 -> 1 / 2 * (2 - 3) + 3 = 3)).
Proof.
  assert (Hu : unit_draw (1 / 2)) by (unfold unit_draw; lra).
  assert (Hle : 2 <= 3) by lra.
  assert (Hrun : uniformRand 3 2 [1 / 2] = Some (1 / 2 * (2 - 3) + 3, []))
    by reflexivity.
  split; [exact Hu|]. split; [exact Hle|]. split; [exact Hrun|].
  exact (uniformRand_reversed_range 3 2 (1 / 2) [] _ [] Hu Hle Hrun).
Defined.

(** X6 on six draws equal to 3/4. *)
Lemma basicJob_costs_bounds_witness :
  Forall unit_draw (repeat (3 / 4) 6) /\
  exists amounts,
    basicJobCostBenefit (repeat (3 / 4) 6) = Some (amounts, []) /\
    exists directCosts productivity,
      get "directCosts" amounts = Some directCosts /\
      get "productivity" amounts = Some productivity /\
      678600000000 <= directCosts < 867100000000 /\
      - directCosts < productivity <= directCosts.
Proof.
  assert (Hunit : Forall unit_draw (repeat (3 / 4) 6))
    by (simpl; repeat (apply Forall_cons; [unfold unit_draw; lra|]); apply Forall_nil).
  split; [exact Hunit|].
  destruct basicJob_three_quarters as (amounts & Hrun).
  exists amounts. split; [exact Hrun|].
  exact (basicJob_costs_bounds _ amounts [] Hunit Hrun).
Defined.

(** X7 on the six draws of [basicIncome_sample]. *)
Lemma basicIncome_components_bounds_witness :
  Forall unit_draw [1 / 2; 3 / 4; 0; 1 / 2; 1 / 2; 3 / 4] /\
  exists amounts,
    basicIncomeCostBenefit [1 / 2; 3 / 4; 0; 1 / 2; 1 / 2; 3 / 4] = Some (amounts, []) /\
    exists productivity (k : Z),
      get "productivity" amounts = Some productivity /\
      -1601600000000 < productivity <= 800800000000 /\
      (0 <= k)%Z /\
      get "jkRowling" amounts = Some (- IZR k * 1000000000).
Proof.
  assert (Hunit : Forall unit_draw [1 / 2; 3 / 4; 0; 1 / 2; 1 / 2; 3 / 4])
    by (simpl; repeat (apply Forall_cons; [unfold unit_draw; lra|]); apply Forall_nil).
  split; [exact Hunit|].
  eexists. split; [apply (basicIncome_sample 0 (1 / 2))|].
  exact (basicIncome_components_bounds _ _ [] Hunit (basicIncome_sample 0 (1 / 2))).
Defined.

(** X8 on an object of two properties. *)
Lemma trial_total_is_scaled_sum_witness :
  let amounts : object R := [("directCosts", 1); ("productivity", 2)] in
  NoDup (Object_keys amounts) /\
  trial_total amounts = sum_values amounts / 1000000000000.
Proof.
  intros amounts.
  assert (Hkeys : NoDup (Object_keys amounts)).
  { unfold amounts. simpl. repeat constructor; simpl; intuition discriminate. }
  split; [exact Hkeys|]. exact (trial_total_is_scaled_sum amounts Hkeys).
Defined.

(** X9 on the six draws of [basicIncome_sample]. *)
Lemma models_read_even_prefix_witness :
  exists amounts used k,
    basicIncomeCostBenefit [1 / 2; 3 / 4; 0; 1 / 2; 1 / 2; 3 / 4] = Some (amounts, []) /\
    [1 / 2; 3 / 4; 0; 1 / 2; 1 / 2; 3 / 4] = used ++ [] /\
    length used = (2 * (3 + k))%nat /\
    forall rest, basicIncomeCostBenefit (used ++ rest) = Some (amounts, rest).
Proof.
  destruct (models_read_even_prefix (num := R)) as [Hbi _].
  destruct (Hbi _ _ _ (basicIncome_sample 0 (1 / 2))) as (used & k & Hused).
  eexists. exists used, k. split; [apply (basicIncome_sample 0 (1 / 2)) | exact Hused].
Defined.

(** X10 on three array slots, one of them a hole. *)
Lemma average_component_witness :
  let a : object R := [("directCosts", 1); ("productivity", 2)] in
  let b : object R := [("productivity", 3); ("directCosts", 5)] in
  Forall (fun o => NoDup (Object_keys o)) (elements [Some a; None; Some b]) /\
  get "directCosts" (array_reduce (amountsAvgReducer 2) [Some a; None; Some b] empty_object)
  = if existsb (hasOwnProperty "directCosts") (elements [Some a; None; Some b])
    then Some (component_sum "directCosts" (elements [Some a; None; Some b]) / 2)
    else None.
Proof.
  intros a b.
  assert (Hkeys : Forall (fun o => NoDup (Object_keys o)) (elements [Some a; None; Some b])).
  { unfold a, b. simpl. repeat constructor; simpl; intuition discriminate. }
  split; [exact Hkeys|].
  exact (average_component 2 [Some a; None; Some b] "directCosts" Hkeys).
Defined.

(** X11 on two array slots, one of them a hole. *)
Lemma average_keys_union_witness :
  let a : object R := [("directCosts", 1); ("productivity", 2)] in
  (exists amounts, In (Some amounts) [Some a; None] /\
                   In "productivity" (Object_keys amounts)) /\
  In "productivity"
     (Object_keys (array_reduce (amountsAvgReducer 2) [Some a; None] empty_object)).
Proof.
  intros a.
  assert (Hown : exists amounts, In (Some amounts) [Some a; None] /\
                                 In "productivity" (Object_keys amounts)).
  { exists a. split; [now left | simpl; tauto]. }
  split; [exact Hown|].
  exact (proj2 (average_keys_union 2 [Some a; None] "productivity") Hown).
Defined.

(** X12 on a second run, on draws all equal to 3/4, after a first one. *)
Lemma run_replaces_previous_results_witness :
  exists g' rs',
    run initial_globals (repeat (3 / 4) (12 * 1000)) = Some (g', rs') /\
    reachable g' /\
    run g' (repeat (3 / 4) (12 * 1000))
    = run initial_globals (repeat (3 / 4) (12 * 1000)).
Proof.
  destruct run_returns_on_three_quarters as (g' & rs' & Hrun).
  assert (Hreach : reachable g')
    by exact (reachable_run _ _ _ _ reachable_initial Hrun).
  exists g', rs'. split; [exact Hrun|]. split; [exact Hreach|].
  exact (run_replaces_previous_results g' _ Hreach).
Defined.

(** X13 on a run with every draw equal to 3/4. *)
Lemma run_reads_even_prefix_witness :
  exists g' rs',
    run initial_globals (repeat (3 / 4) (12 * 1000)) = Some (g', rs') /\
    exists used k,
      repeat (3 / 4) (12 * 1000) = used ++ rs' /\
      length used = (2 * (6 * 1000 + k))%nat /\
      forall rest, run initial_globals (used ++ rest) = Some (g', rest).
Proof.
  destruct run_returns_on_three_quarters as (g' & rs' & Hrun).
  exists g', rs'. split; [exact Hrun|].
  exact (run_reads_even_prefix initial_globals _ g' rs' Hrun).
Defined.

(** X14 on a run with every draw equal to 3/4. *)
Lemma run_averages_are_means_witness :
  exists g' rs',
    run initial_globals (repeat (3 / 4) (12 * 1000)) = Some (g', rs') /\
    exists bi bj biAvg bjAvg,
      biAmounts g' = map Some bi /\ bjAmounts g' = map Some bj /\
      biAmountsAvg g' = Some biAvg /\ bjAmountsAvg g' = Some bjAvg /\
      (forall key, In key basicIncomeKeys ->
                   get key biAvg
                   = Some (component_sum key bi / IZR (Z.of_nat (length bi)))) /\
      (forall key, In key basicJobKeys ->
                   get key bjAvg
                   = Some (component_sum key bj / IZR (Z.of_nat (length bj)))).
Proof.
  destruct run_returns_on_three_quarters as (g' & rs' & Hrun).
  exists g', rs'. split; [exact Hrun|].
  exact (run_averages_are_means initial_globals _ g' rs' reachable_initial Hrun).
Defined.

(** X15 on a run with every draw equal to 3/4. *)
Lemma run_average_directCosts_witness :
  exists g' rs',
    run initial_globals (repeat (3 / 4) (12 * 1000)) = Some (g', rs') /\
    exists biAvg jk,
      biAmountsAvg g' = Some biAvg /\
      get "directCosts" biAvg = Some 1645750000000 /\
      get "jkRowling" biAvg = Some jk /\ jk <= 0.
Proof.
  destruct run_returns_on_three_quarters as (g' & rs' & Hrun).
  exists g', rs'. split; [exact Hrun|].
  exact (run_average_directCosts initial_globals _ g' rs' reachable_initial Hrun).
Defined.

(** X17 on a run with every draw equal to 3/4. *)
Lemma render_rows_after_run_witness :
  exists g' rs',
    run initial_globals (repeat (3 / 4) (12 * 1000)) = Some (g', rs') /\
    render_bars (num := R) initial_globals = None /\
    exists biBars bjBars,
      render_bars g' = Some (biBars, bjBars) /\
      map category biBars
      = ["administrativeCosts"; "directCosts"; "jkRowling"; "productivity"] /\
      map category bjBars
      = ["administrativeCosts"; "directCosts"; "disabled"; "productivity"].
Proof.
  destruct run_returns_on_three_quarters as (g' & rs' & Hrun).
  exists g', rs'. split; [exact Hrun|].
  exact (render_rows_after_run initial_globals _ g' rs' reachable_initial Hrun).
Defined.

(** X18 on two objects whose values reach from -1 to 3. *)
Lemma bars_fit_scale_witness :
  let a : object R := [("productivity", -1); ("directCosts", 3)] in
  let b : object R := [("disabled", 1)] in
  (exists key, get key a = Some (-1) \/ get key b = Some (-1)) /\
  (exists key, get key a = Some 3 \/ get key b = Some 3) /\
  -1 <= 0 /\ 0 <= 3 /\ -1 < 3 /\
  forall d, In d (bars_data a b) ->
            0 <= offset d /\ 0 <= width d /\ offset d + width d <= 100 /\
            (background_color d = "red" <-> 0 < value d).
Proof.
  intros a b.
  assert (Hlo : exists key, get key a = Some (-1) \/ get key b = Some (-1))
    by (exists "productivity"; left; reflexivity).
  assert (Hhi : exists key, get key a = Some 3 \/ get key b = Some 3)
    by (exists "directCosts"; left; reflexivity).
  assert (H1 : -1 <= 0) by lra. assert (H2 : 0 <= 3) by lra. assert (H3 : -1 < 3) by lra.
  do 5 (split; [assumption|]).
  exact (bars_fit_scale a b (-1) 3 Hlo Hhi H1 H2 H3).
Defined.

(** X19 on a run with every draw equal to 3/4. *)
Lemma render_bars_fit_after_run_witness :
  exists g' rs',
    run initial_globals (repeat (3 / 4) (12 * 1000)) = Some (g', rs') /\
    exists biBars bjBars,
      render_bars g' = Some (biBars, bjBars) /\
      forall d, In d biBars \/ In d bjBars ->
                0 <= offset d /\ 0 <= width d /\ offset d + width d <= 100.
Proof.
  destruct run_returns_on_three_quarters as (g' & rs' & Hrun).
  exists g', rs'. split; [exact Hrun|].
  exact (render_bars_fit_after_run initial_globals _ g' rs' reachable_initial Hrun).
Defined.

(** X20 on two objects whose values are 3 and 1. *)
Lemma bars_all_positive_overflow_witness :
  let a : object R := [("directCosts", 3)] in
  let b : object R := [("disabled", 1)] in
  get "directCosts" a = Some 3 /\
  (exists key', get key' a = Some 1 \/ get key' b = Some 1) /\
  (forall key' v, get key' a = Some v \/ get key' b = Some v -> 1 <= v <= 3) /\
  0 < 1 /\ 1 < 3 /\
  (forall d, In d (bars_data a b) ->
             offset d = 0 /\ background_color d = "red" /\
             width d = value d * 100 / (3 - 1)) /\
  exists d, In d (bars_data a b) /\ category d = "directCosts" /\ 100 < width d.
Proof.
  intros a b.
  assert (Hhi : get "directCosts" a = Some 3) by reflexivity.
  assert (Hlo : exists key', get key' a = Some 1 \/ get key' b = Some 1)
    by (exists "disabled"; right; reflexivity).
  assert (Hall : forall key' v, get key' a = Some v \/ get key' b = Some v -> 1 <= v <= 3).
  { intros key' v [Hv|Hv]; cbn [get a b] in Hv;
      destruct (String.eqb key' _); inversion Hv; lra. }
  assert (H1 : 0 < 1) by lra. assert (H2 : 1 < 3) by lra.
  do 5 (split; [assumption|]).
  exact (bars_all_positive_overflow a b "directCosts" 1 3 Hhi Hlo Hall H1 H2).
Defined.

(** X21 on two objects that both hold the value 3. *)
Lemma bars_share_scale_witness :
  let a : object R := [("productivity", -1); ("directCosts", 3)] in
  let b : object R := [("disabled", 3)] in
  exists d d',
    In d (bars_data a b) /\ In d' (bars_data b a) /\ value d = value d' /\
    offset d = offset d' /\ width d = width d' /\ sign d = sign d'.
Proof.
  intros a b.
  destruct (bars_data_has_key a b "directCosts" 3 eq_refl) as (d & Hd & _ & Hv).
  destruct (bars_data_has_key b a "disabled" 3 eq_refl) as (d' & Hd' & _ & Hv').
  assert (Heq : value d = value d') by (rewrite Hv, Hv'; reflexivity).
  exists d, d'. split; [exact Hd|]. split; [exact Hd'|]. split; [exact Heq|].
  exact (bars_share_scale a b d d' Hd Hd' Heq).
Defined.
End FurtherWitnesses.
